(** * Asynchronous buffered reader and broadcasting writer of [utils.go]

    A shallow embedding of [bufReader] (with its background [drain]
    goroutine) and of [writeBroadcaster], and the properties of both that
    the design document states.

    Conventions.
    - A Go [error] interface value is an [option error]; [None] is [nil].
    - A byte slice is a [list byte]; [len(p)] is [length p].
    - The [int] a sink reports from [Write] is a [Z]: the interface lets
      an implementation report any integer.
    - Calls into interface values supplied by the owner (the [io.Reader]
      behind a [bufReader], the [io.WriteCloser]s registered with a
      [writeBroadcaster]) are parameters of a [Section]; the calls that
      the code makes are recorded in a ghost trace so that statements
      such as "B receives d" can be written down.
    - The two goroutines of a [bufReader] are interleaved by a schedule,
      one access to shared state at a time, every access seeing the
      writes before it; a method of [bytes.Buffer] counts as one
      access. *)

From Stdlib Require Import List ZArith Lia Bool Arith PeanoNat Sorted.
From Stdlib Require Import Strings.Byte.
From Stdlib Require Strings.String.
Import ListNotations.

Set Default Proof Using "Type".

(** ** Go values shared by both components *)

(** [io.EOF] and every other error value. *)
Inductive error : Type :=
| io_EOF
| errorString (msg : String.string).

(** An error value for the examples. *)
Module Errors.
Import Stdlib.Strings.String.
Definition broken_pipe : error := errorString "broken pipe"%string.
End Errors.

Definition is_err (e : option error) : bool :=
  match e with Some _ => true | None => false end.

Definition bytes := list byte.

(** ** [bytes.Buffer], the two methods [bufReader] calls

    The unread part of the buffer is a list of bytes.  [Write] appends;
    [Read] copies into a slice of length [plen] and returns the bytes it
    copied ([n] is their number): on an empty buffer it returns [io.EOF],
    except for [len(p) == 0], where it returns [(0, nil)]. *)
Module Buffer.

Definition Write (p : bytes) (b : bytes) : bytes := b ++ p.

Definition Read (plen : nat) (b : bytes) : (bytes * option error) * bytes :=
  match b with
  | [] => if plen =? 0 then (([], None), []) else (([], Some io_EOF), [])
  | _ :: _ => ((firstn plen b, None), skipn plen b)
  end.

End Buffer.

(** ** [bufReader] and its [drain] goroutine *)
Module AsyncReader.

(** *** Two readers

    A reader over a finite stream, which hands out at most [len(p)]
    bytes per call and [(0, io.EOF)] at the end (as [bytes.Reader] or a
    file does); and a reader that plays back a list of results, for
    readers that return bytes and an error from the same call, which
    [io.Reader] allows. *)
Definition stream_Read (bs : bytes) (c : nat)
  : (bytes * option error) * bytes :=
  match bs with
  | [] => (([], Some io_EOF), [])
  | _ :: _ => ((firstn c bs, None), skipn c bs)
  end.


(** The buffer length of [drain] in the source. *)
Definition drain_buf_len : nat := 1024.

Section Reader.
(** The wrapped [io.Reader]: its state, and [Read(p)] as a function of
    [len(p)] returning the bytes stored in [p[0:n]] and the error. *)
Variable Src : Type.
Variable src_Read : Src -> nat -> (bytes * option error) * Src.
(** [len(buf)] of [drain]; the source has [make([]byte, 1024)]. *)
Variable chunk : nat.

(** The fields [buf], [reader] and [err]; the mutex [l] and the
    condition [wait] are part of the scheduler state below. *)
Record bufReader : Type :=
  mkBufReader { buf : bytes; reader : Src; err : option error }.

(** *** The code of each goroutine, one call at a time *)

(** Lines 92-96 of [drain]: what is done with the result of
    [r.reader.Read(buf)]. *)
Definition drain_store (data : bytes) (e : option error) (r : bufReader)
  : bufReader :=
  match e with
  | Some _ => {| buf := buf r; reader := reader r; err := e |}
  | None =>
      {| buf := Buffer.Write data (buf r); reader := reader r;
         err := err r |}
  end.

(** One turn of the loop of [drain]; the flag says whether the loop
    goes on (line 100). *)
Definition drain_iter (r : bufReader) : bufReader * bool :=
  let '((data, e), src') := src_Read (reader r) chunk in
  (drain_store data e {| buf := buf r; reader := src'; err := err r |},
   negb (is_err e)).

(** [drain] with the other goroutine standing still; [None] when the
    fuel runs out before the reader returns an error. *)
Fixpoint drain (fuel : nat) (r : bufReader) : option bufReader :=
  match fuel with
  | 0 => None
  | S k =>
      let '(r', again) := drain_iter r in
      if again then drain k r' else Some r'
  end.

(** What a call of [Read] comes to with the other goroutine standing
    still: it returns, or it reaches [Wait]. *)
Inductive read_result : Type :=
| Returned (data : bytes) (e : option error)
| Waits.

(** [Read], up to its first [Wait]: the body of its loop.  A call that
    is signalled goes through the same body again; the interleaved
    system below has the whole loop. *)

Definition Read (plen : nat) (r : bufReader)
  : read_result * bufReader :=
  let '((data, e), b') := Buffer.Read plen (buf r) in
  let r' := {| buf := b'; reader := reader r; err := err r |} in
  if 0 <? length data then (Returned data e, r')
  else
    match err r with
    | Some e' => (Returned [] (Some e'), r')
    | None => (Waits, r')
    end.

(** *** The two goroutines interleaved

    Each goroutine is cut at its accesses to the shared fields, to the
    mutex and to the condition; a schedule picks who moves next.  The
    methods of [bytes.Buffer] are taken as indivisible. *)

Inductive tid : Type := TDrain | TCons.

Inductive drain_pc : Type :=
| DRead                                      (* line 91 *)
| DStore (data : bytes) (e : option error)   (* lines 92-96 *)
| DLock (e : option error)                   (* line 97 *)
| DSignal (e : option error)                 (* line 98 *)
| DUnlock (e : option error)                 (* lines 99-102 *)
| DDone.

Inductive cons_pc : Type :=
| CIdle                    (* not in [Read] *)
| CBufRead (plen : nat)    (* line 108 *)
| CCheckErr (plen : nat)   (* line 112, after [n == 0] *)
| CLock (plen : nat)       (* line 115 *)
| CWait (plen : nat)       (* line 116, entering [Wait] *)
| CParked (plen : nat)     (* in [Wait], suspended *)
| CWoken (plen : nat)      (* in [Wait], signalled, locking again *)
| CUnlock (plen : nat).    (* line 117 *)

(** A finished call of [Read]: [len(p)], the bytes returned, the
    error. *)
Definition read_entry : Type := (nat * bytes * option error)%type.

Record sys : Type := mkSys {
  rd : bufReader;
  mu : option tid;                          (* holder of [r.l] *)
  dpc : drain_pc;
  cpc : cons_pc;
  src_log : list (bytes * option error);    (* ghost: results of the reader *)
  read_log : list read_entry                (* ghost: results of [Read] *)
}.

(** [newBufReader(r)]: empty buffer, no error, [drain] started. *)
Definition newBufReader (r : Src) : sys :=
  {| rd := {| buf := []; reader := r; err := None |};
     mu := None; dpc := DRead; cpc := CIdle;
     src_log := []; read_log := [] |}.

Definition step_drain (s : sys) : option sys :=
  match dpc s with
  | DRead =>
      let '((data, e), src') := src_Read (reader (rd s)) chunk in
      Some {| rd := {| buf := buf (rd s); reader := src';
                       err := err (rd s) |};
              mu := mu s; dpc := DStore data e; cpc := cpc s;
              src_log := src_log s ++ [(data, e)];
              read_log := read_log s |}
  | DStore data e =>
      Some {| rd := drain_store data e (rd s);
              mu := mu s; dpc := DLock e; cpc := cpc s;
              src_log := src_log s; read_log := read_log s |}
  | DLock e =>
      match mu s with
      | None =>
          Some {| rd := rd s; mu := Some TDrain; dpc := DSignal e;
                  cpc := cpc s;
                  src_log := src_log s; read_log := read_log s |}
      | Some _ => None
      end
  | DSignal e =>
      Some {| rd := rd s; mu := mu s; dpc := DUnlock e;
              cpc := match cpc s with
                     | CParked plen => CWoken plen
                     | c => c
                     end;
              src_log := src_log s; read_log := read_log s |}
  | DUnlock e =>
      Some {| rd := rd s; mu := None;
              dpc := if is_err e then DDone else DRead;
              cpc := cpc s;
              src_log := src_log s; read_log := read_log s |}
  | DDone => None
  end.

Definition step_cons (s : sys) : option sys :=
  match cpc s with
  | CIdle => None
  | CBufRead plen =>
      let '((data, e), b') := Buffer.Read plen (buf (rd s)) in
      let r' := {| buf := b'; reader := reader (rd s);
                   err := err (rd s) |} in
      if 0 <? length data
      then Some {| rd := r'; mu := mu s; dpc := dpc s; cpc := CIdle;
                   src_log := src_log s;
                   read_log := read_log s ++ [(plen, data, e)] |}
      else Some {| rd := r'; mu := mu s; dpc := dpc s;
                   cpc := CCheckErr plen;
                   src_log := src_log s; read_log := read_log s |}
  | CCheckErr plen =>
      match err (rd s) with
      | Some e =>
          Some {| rd := rd s; mu := mu s; dpc := dpc s; cpc := CIdle;
                  src_log := src_log s;
                  read_log := read_log s ++ [(plen, [], Some e)] |}
      | None =>
          Some {| rd := rd s; mu := mu s; dpc := dpc s; cpc := CLock plen;
                  src_log := src_log s; read_log := read_log s |}
      end
  | CLock plen =>
      match mu s with
      | None =>
          Some {| rd := rd s; mu := Some TCons; dpc := dpc s;
                  cpc := CWait plen;
                  src_log := src_log s; read_log := read_log s |}
      | Some _ => None
      end
  | CWait plen =>
      Some {| rd := rd s; mu := None; dpc := dpc s; cpc := CParked plen;
              src_log := src_log s; read_log := read_log s |}
  | CParked _ => None
  | CWoken plen =>
      match mu s with
      | None =>
          Some {| rd := rd s; mu := Some TCons; dpc := dpc s;
                  cpc := CUnlock plen;
                  src_log := src_log s; read_log := read_log s |}
      | Some _ => None
      end
  | CUnlock plen =>
      Some {| rd := rd s; mu := None; dpc := dpc s; cpc := CBufRead plen;
              src_log := src_log s; read_log := read_log s |}
  end.

(** The moves of a schedule: a step of [drain], a step of the goroutine
    that calls [Read], or that goroutine calling [Read(p)]. *)
Inductive action : Type :=
| ActDrain
| ActCons
| ActCall (plen : nat).

Definition step (a : action) (s : sys) : option sys :=
  match a with
  | ActDrain => step_drain s
  | ActCons => step_cons s
  | ActCall plen =>
      match cpc s with
      | CIdle =>
          Some {| rd := rd s; mu := mu s; dpc := dpc s;
                  cpc := CBufRead plen;
                  src_log := src_log s; read_log := read_log s |}
      | _ => None
      end
  end.

(** A move that is not enabled (a goroutine that is blocked or has
    ended) leaves the state as it is. *)
Definition exec (a : action) (s : sys) : sys :=
  match step a s with Some s' => s' | None => s end.

Definition run (sched : list action) (s : sys) : sys :=
  fold_left (fun s a => exec a s) sched s.

(** *** What was produced, accepted and delivered *)

(** All the bytes the reader returned. *)
Definition produced (s : sys) : bytes := concat (map fst (src_log s)).

(** The bytes the reader returned without an error. *)
Definition accepted_of (l : list (bytes * option error)) : bytes :=
  concat (map fst (filter (fun r => negb (is_err (snd r))) l)).

Definition accepted (s : sys) : bytes := accepted_of (src_log s).

(** The bytes [Read] returned, in the order of the calls. *)
Definition delivered (s : sys) : bytes :=
  concat (map (fun en : read_entry => snd (fst en)) (read_log s)).

(** Bytes read from the reader that line 95 has yet to append. *)
Definition pending (s : sys) : bytes :=
  match dpc s with
  | DStore data None => data
  | _ => []
  end.

(** The schedule of a goroutine that calls [Read] with each of the
    lengths in turn, running alone. *)
Definition reads (sizes : list nat) : list action :=
  flat_map (fun n => [ActCall n; ActCons; ActCons]) sizes.

Definition no_error (r : bytes * option error) : Prop := snd r = None.

(** The log of the reader when the recorded error is [e]: an error ends
    the log and is the recorded one. *)
Definition src_shape (l : list (bytes * option error)) (e : option error)
  : Prop :=
  match e with
  | None => Forall no_error l
  | Some x => exists l' d, l = l' ++ [(d, Some x)] /\ Forall no_error l'
  end.

Definition holds_d (pc : drain_pc) : bool :=
  match pc with DSignal _ | DUnlock _ => true | _ => false end.

Definition holds_c (pc : cons_pc) : bool :=
  match pc with CWait _ | CUnlock _ => true | _ => false end.

(** A finished [Read] returned bytes and no error, or no byte and the
    recorded error. *)
Definition entry_ok (e : option error) (en : read_entry) : Prop :=
  let '(plen, d, x) := en in
  (x = None /\ d <> [] /\ length d <= plen)
  \/ (d = [] /\ x = e /\ x <> None).

Record Inv (s : sys) : Prop := mkInv {
  inv_fifo : delivered s ++ buf (rd s) ++ pending s = accepted s;
  inv_err :
    match dpc s with
    | DRead | DStore _ _ => err (rd s) = None
    | DLock e | DSignal e | DUnlock e => err (rd s) = e
    | DDone => err (rd s) <> None
    end;
  inv_src :
    match dpc s with
    | DStore d e =>
        exists l', src_log s = l' ++ [(d, e)] /\ Forall no_error l'
    | _ => src_shape (src_log s) (err (rd s))
    end;
  inv_log : Forall (entry_ok (err (rd s))) (read_log s);
  inv_mu :
    mu s = (if holds_d (dpc s) then Some TDrain
            else if holds_c (cpc s) then Some TCons else None)
    /\ (holds_d (dpc s) && holds_c (cpc s) = false)
}.

Definition data_of (en : read_entry) : bytes := snd (fst en).

Definition quiet (c : cons_pc) : Prop :=
  match c with CIdle | CBufRead _ | CCheckErr _ => True | _ => False end.

(** With the error recorded and the buffer empty, the goroutine in
    [Read] is never sent to [Wait], and all it returns is the error. *)
Definition terminal (e : error) (base : list read_entry) (s : sys) : Prop :=
  err (rd s) = Some e
  /\ buf (rd s) = []
  /\ quiet (cpc s)
  /\ exists ks, read_log s = base ++ map (fun k => (k, [], Some e)) ks.

(** A finished [Read] with a destination that is not empty and an
    error as its result. *)
Definition err_entry (en : read_entry) : Prop :=
  0 < fst (fst en) /\ snd en <> None.

(** Since the state whose buffer held [b0] and whose log was [base]:
    the bytes returned and the bytes left make up [b0], and a call with
    a non-empty destination returned the error only after all of
    [b0]. *)
Definition deferred (b0 : bytes) (base : list read_entry) (s : sys)
  : Prop :=
  exists new,
    read_log s = base ++ new
    /\ concat (map data_of new) ++ buf (rd s) = b0
    /\ (forall k, cpc s = CCheckErr k -> 0 < k -> buf (rd s) = [])
    /\ (forall l1 en l2,
          new = l1 ++ en :: l2 -> err_entry en ->
          concat (map data_of l1) = b0).

Ltac close :=
  simpl in *; repeat split; eauto; try congruence; try contradiction.

Ltac inv_cases :=
  constructor; unfold delivered, accepted, pending; simpl; auto;
  try solve [split; auto; rewrite ?andb_false_r; auto;
             destruct (holds_d _); auto].

(** *** One call at a time *)

Lemma Buffer_Read_eq (plen : nat) (b : bytes) :
  fst (fst (Buffer.Read plen b)) = firstn plen b
  /\ snd (Buffer.Read plen b) = skipn plen b
  /\ snd (fst (Buffer.Read plen b))
     = match b with
       | [] => if plen =? 0 then None else Some io_EOF
       | _ :: _ => None
       end.
Proof.
  unfold Buffer.Read. destruct b as [|x b].
  - rewrite firstn_nil, skipn_nil. destruct (plen =? 0); auto.
  - auto.
Qed.

Lemma firstn_nonempty (plen : nat) (b : bytes) :
  0 < plen -> b <> [] -> 0 < length (firstn plen b).
Proof.
  destruct plen; [lia|]. destruct b; [congruence|]. simpl. lia.
Qed.

Lemma Read_data (plen : nat) (r : bufReader) :
  0 < plen -> buf r <> [] ->
  Read plen r
  = (Returned (firstn plen (buf r)) None,
     {| buf := skipn plen (buf r); reader := reader r; err := err r |}).
Proof.
  intros Hp Hb. unfold Read.
  pose proof (firstn_nonempty plen (buf r) Hp Hb) as Hl.
  destruct (buf r) as [|x b] eqn:E; [congruence|].
  unfold Buffer.Read.
  apply Nat.ltb_lt in Hl. rewrite Hl. reflexivity.
Qed.

Lemma Read_empty (plen : nat) (r : bufReader) :
  buf r = [] ->
  Read plen r
  = (match err r with Some e => Returned [] (Some e) | None => Waits end,
     r).
Proof.
  intros Hb. unfold Read. destruct r as [b src e]. simpl in *.
  subst b. simpl. destruct (plen =? 0); simpl; destruct e; reflexivity.
Qed.

Lemma Read_zero (r : bufReader) :
  Read 0 r
  = (match err r with Some e => Returned [] (Some e) | None => Waits end,
     r).
Proof.
  unfold Read. destruct r as [b src e]. simpl.
  destruct b; simpl; destruct e; reflexivity.
Qed.

(** *** Invariants of the interleaved system *)

Lemma accepted_of_snoc (l : list (bytes * option error)) (d : bytes)
    (e : option error) :
  accepted_of (l ++ [(d, e)])
  = accepted_of l ++ match e with None => d | Some _ => [] end.
Proof.
  unfold accepted_of. rewrite filter_app, map_app, concat_app. simpl.
  destruct e; simpl; rewrite ?app_nil_r; reflexivity.
Qed.


Lemma Inv_init (r : Src) : Inv (newBufReader r).
Proof.
  constructor; simpl; auto.
Qed.

Lemma entry_ok_no_error (en : read_entry) (e : option error) :
  entry_ok None en -> entry_ok e en.
Proof.
  destruct en as [[plen d] x]. simpl.
  intros [H|(_ & -> & H)]; [left; exact H | congruence].
Qed.

Lemma Inv_step_drain (s s' : sys) :
  Inv s -> step_drain s = Some s' -> Inv s'.
Proof.
  intros [Hf He Hs Hl [Hm Hx]] Hstep.
  unfold step_drain in Hstep.
  destruct s as [r m d c sl rl].
  unfold delivered, accepted, pending in *. simpl in *.
  destruct d as [|data e|e|e|e|].
  - (* line 91 *)
    destruct (src_Read (reader r) chunk) as [[data e] src'].
    injection Hstep as <-.
    inv_cases.
    + rewrite accepted_of_snoc, <- Hf, app_nil_r.
      destruct e; rewrite ?app_nil_r, <- ?app_assoc; reflexivity.
    + rewrite He in Hs. exists sl. auto.
  - (* lines 92-96 *)
    injection Hstep as <-.
    destruct Hs as (l' & -> & Hok).
    inv_cases.
    + rewrite <- Hf. destruct e; simpl; unfold Buffer.Write;
        rewrite ?app_nil_r; reflexivity.
    + destruct e; simpl; auto.
    + destruct e as [x|]; simpl.
      * exists l', data. auto.
      * rewrite He. apply Forall_app. split; auto.
        constructor; auto. reflexivity.
    + rewrite He in Hl. eapply Forall_impl; [|exact Hl].
      intros en. apply entry_ok_no_error.
  - (* line 97 *)
    destruct m; [discriminate|]. injection Hstep as <-.
    inv_cases.
    destruct (holds_c c); [discriminate|]. auto.
  - (* line 98 *)
    injection Hstep as <-.
    inv_cases.
    destruct c; simpl in *; auto.
  - (* lines 99-102 *)
    injection Hstep as <-.
    inv_cases.
    + destruct (is_err e); auto.
    + destruct e; simpl; congruence.
    + destruct (is_err e); auto.
    + destruct (holds_c c); [discriminate|].
      destruct (is_err e); auto.
  - discriminate.
Qed.

Lemma Inv_step_cons (s s' : sys) :
  Inv s -> step_cons s = Some s' -> Inv s'.
Proof.
  intros [Hf He Hs Hl [Hm Hx]] Hstep.
  unfold step_cons in Hstep.
  destruct s as [r m d c sl rl].
  unfold delivered, accepted, pending in *. simpl in *.
  rewrite andb_false_iff in Hx.
  destruct c as [|plen|plen|plen|plen|plen|plen|plen].
  - discriminate.
  - (* line 108 *)
    destruct (Buffer_Read_eq plen (buf r)) as (Hd & Hb & Hr).
    destruct (Buffer.Read plen (buf r)) as [[data e] b'].
    simpl in Hd, Hb, Hr. subst data b'.
    destruct (0 <? length (firstn plen (buf r))) eqn:Hn;
      injection Hstep as <-.
    + apply Nat.ltb_lt in Hn.
      inv_cases.
      * rewrite map_app, concat_app. simpl.
        rewrite app_nil_r, <- app_assoc, (app_assoc (firstn _ _)),
          firstn_skipn. exact Hf.
      * apply Forall_app. split; auto. constructor; auto.
        left.
        destruct (buf r); [rewrite firstn_nil in Hn; simpl in Hn; lia|].
        subst e. repeat split.
        -- intros E. rewrite E in Hn. simpl in Hn. lia.
        -- apply firstn_le_length.
    + apply Nat.ltb_ge in Hn.
      assert (E : firstn plen (buf r) = [])
        by (destruct (firstn plen (buf r)); [auto | simpl in Hn; lia]).
      inv_cases.
      rewrite <- (firstn_skipn plen (buf r)) in Hf at 1.
      rewrite E in Hf. exact Hf.
  - (* line 112 *)
    remember (err r) as er eqn:E in Hstep. symmetry in E.
    destruct er as [x|]; injection Hstep as <-; inv_cases.
    + rewrite map_app, concat_app. simpl. rewrite app_nil_r. exact Hf.
    + apply Forall_app. split; auto. constructor; auto.
      right. rewrite E. repeat split. discriminate.
  - (* line 115 *)
    destruct m; [discriminate|]. injection Hstep as <-.
    inv_cases.
    destruct (holds_d d); [discriminate|]. auto.
  - (* line 116 *)
    injection Hstep as <-.
    inv_cases.
    destruct (holds_d d); simpl in *; [destruct Hx; discriminate|]. auto.
  - discriminate.
  - destruct m; [discriminate|]. injection Hstep as <-.
    inv_cases.
    destruct (holds_d d); [discriminate|]. auto.
  - (* line 117 *)
    injection Hstep as <-.
    inv_cases.
    destruct (holds_d d); simpl in *; [destruct Hx; discriminate|]. auto.
Qed.

Lemma Inv_exec (a : action) (s : sys) : Inv s -> Inv (exec a s).
Proof.
  intros H. unfold exec. destruct (step a s) as [s'|] eqn:E; auto.
  destruct a as [| |plen]; simpl in E.
  - eapply Inv_step_drain; eauto.
  - eapply Inv_step_cons; eauto.
  - destruct H as [Hf He Hs Hl [Hm Hx]].
    destruct s as [r m d c sl rl].
    unfold delivered, accepted, pending in *. simpl in *.
    destruct c; try discriminate. injection E as <-.
    inv_cases.
Qed.

Lemma Inv_run (sched : list action) (s : sys) : Inv s -> Inv (run sched s).
Proof.
  unfold run. revert s.
  induction sched as [|a sched IH]; intros s H; simpl; auto.
  apply IH, Inv_exec, H.
Qed.

Lemma run_app (s1 s2 : list action) (s : sys) :
  run (s1 ++ s2) s = run s2 (run s1 s).
Proof. unfold run. apply fold_left_app. Qed.

(** *** The functions and the interleaved system agree

    Three steps of a caller running alone do what the function [Read]
    does. *)

Lemma call_is_Read (plen : nat) (s : sys) :
  cpc s = CIdle ->
  let s' := run [ActCall plen; ActCons; ActCons] s in
  rd s' = snd (Read plen (rd s))
  /\ dpc s' = dpc s /\ mu s' = mu s /\ src_log s' = src_log s
  /\ match fst (Read plen (rd s)) with
     | Returned d e =>
         cpc s' = CIdle /\ read_log s' = read_log s ++ [(plen, d, e)]
     | Waits => cpc s' = CLock plen /\ read_log s' = read_log s
     end.
Proof.
  intros Hc. destruct s as [r m d c sl rl]. simpl in Hc. subst c.
  unfold Read, run, exec, step, step_cons. simpl.
  destruct (Buffer.Read plen (buf r)) as [[data e] b'].
  destruct (0 <? length data); simpl.
  - repeat split; reflexivity.
  - destruct (err r); simpl; repeat split; reflexivity.
Qed.

(** One turn of the loop of [drain], running alone with the mutex free,
    is five steps of the interleaved system and does what [drain_iter]
    does. *)
Lemma drain_round_is_drain_iter (s : sys) :
  dpc s = DRead -> mu s = None -> quiet (cpc s) ->
  let s' := run (repeat ActDrain 5) s in
  rd s' = fst (drain_iter (rd s))
  /\ dpc s' = (if snd (drain_iter (rd s)) then DRead else DDone)
  /\ mu s' = None /\ cpc s' = cpc s /\ read_log s' = read_log s.
Proof.
  intros Hd Hm Hq. destruct s as [[b src x] m d c sl rl].
  cbn [dpc mu cpc] in Hd, Hm, Hq. subst d m.
  unfold drain_iter. cbn [rd reader buf err read_log cpc].
  destruct (src_Read src chunk) as [[data e] src'] eqn:E.
  assert (E1 : exec ActDrain
                 {| rd := {| buf := b; reader := src; err := x |};
                    mu := None; dpc := DRead; cpc := c;
                    src_log := sl; read_log := rl |}
               = {| rd := {| buf := b; reader := src'; err := x |};
                    mu := None; dpc := DStore data e; cpc := c;
                    src_log := sl ++ [(data, e)]; read_log := rl |}).
  { unfold exec, step, step_drain. cbn [dpc rd reader]. rewrite E.
    reflexivity. }
  unfold run. cbn [repeat fold_left]. rewrite E1.
  unfold exec at 4. cbn [step step_drain dpc rd mu cpc src_log read_log].
  unfold exec at 3. cbn [step step_drain dpc rd mu cpc src_log read_log].
  unfold exec at 2. cbn [step step_drain dpc rd mu cpc src_log read_log].
  unfold exec at 1. cbn [step step_drain dpc rd mu cpc src_log read_log].
  cbn [fst snd].
  destruct c; cbn [quiet] in Hq; try contradiction;
    destruct e; repeat split; reflexivity.
Qed.

(** *** Once the error is recorded *)

(** The recorded error is never replaced, and [drain] never touches the
    reader or the buffer again. *)
Lemma recorded_exec (a : action) (s : sys) (e : error) :
  Inv s -> err (rd s) = Some e ->
  err (rd (exec a s)) = Some e
  /\ src_log (exec a s) = src_log s
  /\ reader (rd (exec a s)) = reader (rd s)
  /\ exists k, buf (rd (exec a s)) = skipn k (buf (rd s)).
Proof.
  intros [Hf He Hs Hl [Hm Hx]] Herr.
  destruct s as [r m d c sl rl]. simpl in *.
  assert (Hno : exists k, buf r = skipn k (buf r)) by (exists 0; auto).
  unfold exec, step, step_cons, step_drain.
  destruct a as [| |plen]; simpl.
  - destruct d as [|data x|x|x|x|]; try destruct m; close.
  - destruct c as [|plen|plen|plen|plen|plen|plen|plen];
      [close | | | destruct m; close | close | close
       | destruct m; close | close].
    + destruct (Buffer_Read_eq plen (buf r)) as (Hd & Hb & Hr).
      destruct (Buffer.Read plen (buf r)) as [[data x] b'].
      simpl in Hd, Hb, Hr. subst data b'.
      destruct (0 <? length (firstn plen (buf r))); close.
    + rewrite Herr. close.
  - destruct c; close.
Qed.

Lemma recorded_run (sched : list action) (s : sys) (e : error) :
  Inv s -> err (rd s) = Some e ->
  err (rd (run sched s)) = Some e
  /\ src_log (run sched s) = src_log s
  /\ reader (rd (run sched s)) = reader (rd s)
  /\ exists k, buf (rd (run sched s)) = skipn k (buf (rd s)).
Proof.
  unfold run. revert s.
  induction sched as [|a sched IH]; intros s Hi Herr; simpl.
  - repeat split; auto. exists 0. reflexivity.
  - destruct (recorded_exec a s e Hi Herr) as (H1 & H2 & H3 & k1 & H4).
    destruct (IH (exec a s) (Inv_exec a s Hi) H1)
      as (H1' & H2' & H3' & k2 & H4').
    repeat split; try congruence.
    exists (k2 + k1). rewrite H4', H4. apply skipn_skipn.
Qed.

Lemma terminal_exec (a : action) (s : sys) (e : error)
    (base : list read_entry) :
  Inv s -> terminal e base s -> terminal e base (exec a s).
Proof.
  intros [Hf He Hs Hl [Hm Hx]] (Herr & Hbuf & Hq & ks & Hlog).
  destruct s as [r m d c sl rl]. unfold terminal. simpl in *.
  assert (Hsame : exists ks0, rl = base ++ map (fun k => (k, [], Some e)) ks0)
    by eauto.
  unfold exec, step, step_cons, step_drain.
  destruct a as [| |plen]; simpl.
  - destruct d as [|data x|x|x|x|]; simpl; auto; try congruence.
    + destruct m; simpl; auto.
    + repeat split; auto. destruct c; simpl in *; auto.
  - destruct c as [|plen|plen|plen|plen|plen|plen|plen]; simpl in *;
      auto; try contradiction.
    + rewrite Hbuf. unfold Buffer.Read.
      destruct (plen =? 0); simpl; auto.
    + rewrite Herr. simpl. repeat split; auto.
      exists (ks ++ [plen]). rewrite Hlog, map_app, app_assoc. reflexivity.
  - destruct c; simpl in *; auto.
Qed.

Lemma terminal_run (sched : list action) (s : sys) (e : error)
    (base : list read_entry) :
  Inv s -> terminal e base s -> terminal e base (run sched s).
Proof.
  unfold run. revert s.
  induction sched as [|a sched IH]; intros s Hi Ht; simpl; auto.
  apply IH; [apply Inv_exec | apply terminal_exec]; auto.
Qed.

(** Steps of [drain] change nothing a caller of [Read] can see once the
    error is recorded. *)
Lemma drain_steps_recorded (n : nat) (s : sys) (e : error) :
  Inv s -> err (rd s) = Some e -> quiet (cpc s) ->
  let s' := run (repeat ActDrain n) s in
  rd s' = rd s /\ cpc s' = cpc s /\ read_log s' = read_log s.
Proof.
  revert s. induction n as [|n IH]; intros s Hi Herr Hq; simpl; auto.
  assert (H1 : rd (exec ActDrain s) = rd s
               /\ cpc (exec ActDrain s) = cpc s
               /\ read_log (exec ActDrain s) = read_log s).
  { destruct Hi as [Hf He Hs Hl [Hm Hx]].
    destruct s as [r m d c sl rl]. simpl in *.
    unfold exec, step, step_drain. simpl.
    destruct d as [|data x|x|x|x|]; simpl; auto; try congruence.
    - destruct m; simpl; auto.
    - destruct c; simpl in *; auto; contradiction. }
  destruct H1 as (Hr & Hc & Hl).
  destruct (IH (exec ActDrain s)) as (Hr' & Hc' & Hl');
    [apply Inv_exec; auto | congruence | congruence |].
  unfold run in *. simpl. repeat split; congruence.
Qed.

(** *** Reads that begin after the error is recorded *)


Lemma firstn_empty (n : nat) (b : bytes) :
  0 < n -> firstn n b = [] -> b = [].
Proof. destruct n; [lia|]. destruct b; simpl; congruence. Qed.




Lemma snoc_split {A : Type} (l l1 l2 : list A) (a en : A) :
  l ++ [a] = l1 ++ en :: l2 ->
  (l2 = [] /\ l = l1 /\ a = en)
  \/ (exists l2', l2 = l2' ++ [a] /\ l = l1 ++ en :: l2').
Proof.
  destruct l2 as [|y l2 _] using rev_ind; intros H.
  - apply app_inj_tail in H. left. intuition congruence.
  - right. exists l2.
    rewrite app_comm_cons, app_assoc in H.
    apply app_inj_tail in H. destruct H as [-> ->]. auto.
Qed.

Lemma deferred_exec (a : action) (s : sys) (e : error) (b0 : bytes)
    (base : list read_entry) :
  Inv s -> err (rd s) = Some e ->
  deferred b0 base s -> deferred b0 base (exec a s).
Proof.
  intros [Hf He Hs Hl [Hm Hx]] Herr (new & Hlog & Hcat & Hchk & Hdef).
  destruct s as [r m d c sl rl]. unfold deferred. simpl in *.
  assert (Hsame : forall c',
             (forall k, c' = CCheckErr k -> c = CCheckErr k) ->
             exists new0,
               rl = base ++ new0
               /\ concat (map data_of new0) ++ buf r = b0
               /\ (forall k, c' = CCheckErr k -> 0 < k -> buf r = [])
               /\ (forall l1 en l2,
                     new0 = l1 ++ en :: l2 -> err_entry en ->
                     concat (map data_of l1) = b0)).
  { intros c' Hc'. exists new. repeat split; auto.
    intros k Hk Hpos. apply (Hchk k); auto. }
  unfold exec, step, step_cons, step_drain.
  destruct a as [| |plen]; simpl.
  - destruct d as [|data x|x|x|x|]; try congruence; simpl.
    + destruct m; simpl; apply Hsame; auto.
    + apply Hsame. intros k Hk. destruct c; try discriminate; auto.
    + apply Hsame; auto.
    + apply Hsame; auto.
  - destruct c as [|plen|plen|plen|plen|plen|plen|plen]; simpl.
    + apply Hsame; intros k Hk; discriminate.
    + destruct (Buffer_Read_eq plen (buf r)) as (Hd & Hb & Hr).
      destruct (Buffer.Read plen (buf r)) as [[data x] b'].
      simpl in Hd, Hb, Hr. subst data b'.
      destruct (0 <? length (firstn plen (buf r))) eqn:Hn; simpl.
      * exists (new ++ [(plen, firstn plen (buf r), x)]).
        repeat split.
        -- rewrite Hlog, app_assoc. reflexivity.
        -- rewrite map_app, concat_app. unfold data_of at 2. simpl.
           rewrite app_nil_r, <- app_assoc, firstn_skipn. exact Hcat.
        -- intros k Hk. discriminate.
        -- intros l1 en l2 Hsp Hen.
           apply snoc_split in Hsp.
           destruct Hsp as [(_ & _ & <-)|(l2' & _ & Hnew)]; eauto.
           exfalso. destruct Hen as [_ Hen]. simpl in Hen.
           apply Hen. subst x.
           destruct (buf r); auto. rewrite firstn_nil in Hn. discriminate.
      * apply Nat.ltb_ge in Hn.
        assert (E : firstn plen (buf r) = [])
          by (destruct (firstn plen (buf r)); [auto | simpl in Hn; lia]).
        assert (Hsk : skipn plen (buf r) = buf r).
        { rewrite <- (firstn_skipn plen (buf r)) at 2.
          rewrite E. reflexivity. }
        exists new. rewrite Hsk. repeat split; auto.
        intros k Hk Hpos. injection Hk as <-.
        apply (firstn_empty plen); auto.
    + rewrite Herr. simpl.
      exists (new ++ [(plen, [], Some e)]). repeat split.
      * rewrite Hlog, app_assoc. reflexivity.
      * rewrite map_app, concat_app. simpl. rewrite !app_nil_r.
        exact Hcat.
      * intros k Hk. discriminate.
      * intros l1 en l2 Hsp Hen.
        apply snoc_split in Hsp.
        destruct Hsp as [(_ & <- & <-)|(l2' & _ & Hnew)]; eauto.
        destruct Hen as [Hpos _]. simpl in Hpos.
        rewrite (Hchk plen eq_refl Hpos), app_nil_r in Hcat. exact Hcat.
    + destruct m; simpl; apply Hsame; intros k Hk; discriminate.
    + apply Hsame; intros k Hk; discriminate.
    + apply Hsame; intros k Hk; discriminate.
    + destruct m; simpl; apply Hsame; intros k Hk; discriminate.
    + apply Hsame; intros k Hk; discriminate.
  - destruct c; simpl; try (apply Hsame; auto).
    intros k Hk; discriminate.
Qed.

Lemma deferred_run (sched : list action) (s : sys) (e : error) (b0 : bytes)
    (base : list read_entry) :
  Inv s -> err (rd s) = Some e ->
  deferred b0 base s -> deferred b0 base (run sched s).
Proof.
  unfold run. revert s.
  induction sched as [|a sched IH]; intros s Hi He Hd; simpl; auto.
  apply IH.
  - apply Inv_exec, Hi.
  - apply (recorded_exec a s e Hi He).
  - eapply deferred_exec; eauto.
Qed.

Lemma deferred_start (s : sys) :
  cpc s = CIdle -> deferred (buf (rd s)) (read_log s) s.
Proof.
  intros Hc. exists []. rewrite app_nil_r. simpl. repeat split; auto.
  - intros k Hk. congruence.
  - intros l1 en l2 H. destruct l1; discriminate H.
Qed.

Lemma reachable_Inv (src0 : Src) (sched : list action) :
  Inv (run sched (newBufReader src0)).
Proof. apply Inv_run, Inv_init. Qed.

(** Two steps of the caller with the error recorded and the buffer
    empty. *)
Lemma cons_step_terminal (s : sys) (e : error) (k : nat) :
  err (rd s) = Some e -> buf (rd s) = [] ->
  (cpc s = CBufRead k ->
   rd (exec ActCons s) = rd s
   /\ cpc (exec ActCons s) = CCheckErr k
   /\ read_log (exec ActCons s) = read_log s)
  /\ (cpc s = CCheckErr k ->
      rd (exec ActCons s) = rd s
      /\ cpc (exec ActCons s) = CIdle
      /\ read_log (exec ActCons s) = read_log s ++ [(k, [], Some e)]).
Proof.
  intros He Hb. destruct s as [[b src x] m d c sl rl]. simpl in *.
  subst b x. unfold exec, step, step_cons.
  split; intros ->; simpl; auto.
  destruct (k =? 0); simpl; auto.
Qed.

Lemma terminal_call_returns (s : sys) (e : error) (plen m1 m2 : nat) :
  Inv s -> err (rd s) = Some e -> buf (rd s) = [] -> cpc s = CIdle ->
  let s' := run (ActCall plen :: repeat ActDrain m1
                   ++ ActCons :: repeat ActDrain m2 ++ [ActCons]) s in
  cpc s' = CIdle /\ read_log s' = read_log s ++ [(plen, [], Some e)].
Proof.
  intros Hi He Hb Hc. cbv zeta.
  change (ActCall plen :: repeat ActDrain m1
            ++ ActCons :: repeat ActDrain m2 ++ [ActCons])
    with ([ActCall plen] ++ repeat ActDrain m1
            ++ [ActCons] ++ repeat ActDrain m2 ++ [ActCons]).
  rewrite !run_app.
  set (s1 := run [ActCall plen] s).
  assert (H1 : Inv s1 /\ rd s1 = rd s /\ cpc s1 = CBufRead plen
               /\ read_log s1 = read_log s).
  { split; [apply Inv_run, Hi|]. subst s1.
    destruct s as [r m d c sl rl]. simpl in Hc. subst c.
    unfold run, exec. simpl. auto. }
  destruct H1 as (Hi1 & Hr1 & Hc1 & Hl1).
  set (s2 := run (repeat ActDrain m1) s1).
  destruct (drain_steps_recorded m1 s1 e Hi1) as (Hr2 & Hc2 & Hl2);
    [congruence | rewrite Hc1; exact I |].
  fold s2 in Hr2, Hc2, Hl2.
  assert (Hi2 : Inv s2) by (apply Inv_run, Hi1).
  set (s3 := run [ActCons] s2).
  destruct (cons_step_terminal s2 e plen) as [H3 _]; [congruence..|].
  destruct H3 as (Hr3 & Hc3 & Hl3); [congruence|].
  change (exec ActCons s2) with s3 in Hr3, Hc3, Hl3.
  assert (Hi3 : Inv s3) by (apply Inv_run, Hi2).
  set (s4 := run (repeat ActDrain m2) s3).
  destruct (drain_steps_recorded m2 s3 e Hi3) as (Hr4 & Hc4 & Hl4);
    [congruence | rewrite Hc3; exact I |].
  fold s4 in Hr4, Hc4, Hl4.
  destruct (cons_step_terminal s4 e plen) as [_ H5]; [congruence..|].
  destruct H5 as (Hr5 & Hc5 & Hl5); [congruence|].
  change (run [ActCons] s4) with (exec ActCons s4).
  split; congruence.
Qed.

(** A call that finds data, seen in the interleaved system: one step
    of the caller and it is back with the bytes. *)
Lemma call_returns_data (s : sys) (plen : nat) :
  cpc s = CIdle -> 0 < plen -> buf (rd s) <> [] ->
  let s' := run [ActCall plen; ActCons] s in
  cpc s' = CIdle
  /\ read_log s' = read_log s ++ [(plen, firstn plen (buf (rd s)), None)]
  /\ buf (rd s') = skipn plen (buf (rd s))
  /\ err (rd s') = err (rd s).
Proof.
  intros Hc Hp Hb. destruct s as [r m d c sl rl]. simpl in *. subst c.
  pose proof (firstn_nonempty plen (buf r) Hp Hb) as Hl.
  apply Nat.ltb_lt in Hl.
  unfold run, exec, step, step_cons. simpl.
  destruct (buf r) as [|x b] eqn:E; [congruence|].
  unfold Buffer.Read. rewrite Hl. simpl. auto.
Qed.

(** A call with an empty destination and no error recorded goes all
    the way into [Wait]. *)
Lemma call_zero_parks (s : sys) :
  cpc s = CIdle -> err (rd s) = None -> mu s = None ->
  let s' := run [ActCall 0; ActCons; ActCons; ActCons; ActCons] s in
  cpc s' = CParked 0 /\ rd s' = rd s /\ read_log s' = read_log s.
Proof.
  intros Hc He Hm. destruct s as [[b src x] m d c sl rl]. simpl in *.
  subst c x m. destruct b; cbv; auto.
Qed.

(** *** The claims about [bufReader], for any reader behind it *)

(** C2, as amended.  With buffered data and a destination that is not
    empty, [Read] copies as much as fits ([min(len(p), buffered)]
    bytes, taken from the front), and returns at once with [n > 0] and a
    [nil] error, whether or not [drain] has recorded an error; in the
    interleaved system that is one step of the caller, which never goes
    near the mutex.  A call with a non-empty destination returns an
    error only when it found the buffer empty; and for the calls that
    begin once the error is recorded, under every schedule, all the
    bytes that were buffered have been returned before one of them
    returns the error. *)
Theorem Read_returns_buffered_data :
  (forall (r : bufReader) (plen : nat),
      0 < plen -> buf r <> [] ->
      Read plen r
      = (Returned (firstn plen (buf r)) None,
         {| buf := skipn plen (buf r); reader := reader r; err := err r |})
      /\ 0 < length (firstn plen (buf r))
      /\ length (firstn plen (buf r)) = Nat.min plen (length (buf r)))
  /\ (forall (s : sys) (plen : nat),
        cpc s = CIdle -> 0 < plen -> buf (rd s) <> [] ->
        let s' := run [ActCall plen; ActCons] s in
        cpc s' = CIdle
        /\ read_log s'
           = read_log s ++ [(plen, firstn plen (buf (rd s)), None)]
        /\ buf (rd s') = skipn plen (buf (rd s))
        /\ err (rd s') = err (rd s))
  /\ (forall (r r' : bufReader) (plen : nat) (d : bytes) (e : error),
        0 < plen -> Read plen r = (Returned d (Some e), r') ->
        buf r = [] /\ d = [] /\ err r = Some e)
  /\ (forall (src0 : Src) (sched sched2 : list action) (e : error),
        let s := run sched (newBufReader src0) in
        let s2 := run sched2 s in
        err (rd s) = Some e -> cpc s = CIdle ->
        exists new,
          read_log s2 = read_log s ++ new
          /\ concat (map data_of new) ++ buf (rd s2) = buf (rd s)
          /\ forall l1 en l2,
               new = l1 ++ en :: l2 -> err_entry en ->
               concat (map data_of l1) = buf (rd s)).
Proof.
  split; [|split; [|split]].
  - intros r plen Hp Hb. split; [apply Read_data; auto|].
    split; [apply firstn_nonempty; auto | apply length_firstn].
  - intros s plen. apply call_returns_data.
  - intros r r' plen d e Hp HR.
    destruct (buf r) as [|x b] eqn:Hb.
    + rewrite Read_empty in HR by exact Hb.
      destruct (err r); [|discriminate]. injection HR as -> -> _. auto.
    + rewrite Read_data in HR by (auto; congruence). discriminate.
  - intros src0 sched sched2 e. cbv zeta. intros He Hc.
    destruct (deferred_run sched2 _ e _ _
                (reachable_Inv src0 sched) He (deferred_start _ Hc))
      as (new & H1 & H2 & _ & H4).
    exists new. auto.
Qed.

(** C6.  With the error recorded and the buffer empty, [Read] returns
    [(0, r.err)] and leaves the reader as it was, so that every later
    call does the same.  In the interleaved system: the recorded error
    is never replaced and [drain] never reads or appends again; from a
    state with the error recorded, the buffer empty and no call in
    progress, under every schedule the caller is never sent to [Wait]
    and every call returns no byte and that same error, after two steps
    of its own, whatever [drain] does in between. *)
Theorem Read_terminal_idempotent :
  (forall (r : bufReader) (plen : nat) (e : error),
      err r = Some e -> buf r = [] ->
      Read plen r = (Returned [] (Some e), r))
  /\ (forall (src0 : Src) (sched sched2 : list action) (e : error),
        let s := run sched (newBufReader src0) in
        let s2 := run sched2 s in
        err (rd s) = Some e ->
        err (rd s2) = Some e
        /\ src_log s2 = src_log s
        /\ reader (rd s2) = reader (rd s)
        /\ exists k, buf (rd s2) = skipn k (buf (rd s)))
  /\ (forall (src0 : Src) (sched sched2 : list action) (e : error),
        let s := run sched (newBufReader src0) in
        let s2 := run sched2 s in
        err (rd s) = Some e -> buf (rd s) = [] -> cpc s = CIdle ->
        err (rd s2) = Some e
        /\ buf (rd s2) = []
        /\ quiet (cpc s2)
        /\ (exists ks,
               read_log s2
               = read_log s ++ map (fun k => (k, [], Some e)) ks)
        /\ (cpc s2 = CIdle ->
            forall plen m1 m2,
              let s3 := run (ActCall plen :: repeat ActDrain m1
                               ++ ActCons :: repeat ActDrain m2
                               ++ [ActCons]) s2 in
              cpc s3 = CIdle
              /\ read_log s3 = read_log s2 ++ [(plen, [], Some e)])).
Proof.
  split; [|split].
  - intros r plen e He Hb. rewrite Read_empty by exact Hb.
    rewrite He. reflexivity.
  - intros src0 sched sched2 e. cbv zeta. intros He.
    apply recorded_run; auto. apply reachable_Inv.
  - intros src0 sched sched2 e. cbv zeta. intros He Hb Hc.
    pose proof (reachable_Inv src0 sched) as Hi.
    assert (Ht : terminal e (read_log (run sched (newBufReader src0)))
                   (run sched (newBufReader src0))).
    { repeat split; auto.
      - rewrite Hc. exact I.
      - exists []. simpl. rewrite app_nil_r. reflexivity. }
    destruct (terminal_run sched2 _ e _ Hi Ht) as (He2 & Hb2 & Hq2 & Hl2).
    split; [exact He2|]. split; [exact Hb2|]. split; [exact Hq2|].
    split; [exact Hl2|]. intros Hc2 plen m1 m2.
    apply terminal_call_returns; auto. apply Inv_run, Hi.
Qed.


(** C10.  A call with an empty destination never returns bytes: with
    an error recorded it returns [(0, r.err)] and leaves the buffer as
    it is, whatever it holds; with no error recorded it reaches
    [Wait], whatever the buffer holds (in the interleaved system, four
    steps take it through [Lock] into [Wait]); and under every
    schedule a finished call with an empty destination has returned no
    byte and the recorded error. *)
Theorem Read_with_empty_destination :
  (forall r : bufReader,
      Read 0 r
      = (match err r with
         | Some e => Returned [] (Some e)
         | None => Waits
         end, r))
  /\ (forall (s : sys) (e : error),
        cpc s = CIdle -> err (rd s) = Some e ->
        let s' := run [ActCall 0; ActCons; ActCons] s in
        cpc s' = CIdle /\ rd s' = rd s
        /\ read_log s' = read_log s ++ [(0, [], Some e)])
  /\ (forall s : sys,
        cpc s = CIdle -> err (rd s) = None -> mu s = None ->
        let s' := run [ActCall 0; ActCons; ActCons; ActCons; ActCons] s in
        cpc s' = CParked 0 /\ rd s' = rd s /\ read_log s' = read_log s)
  /\ (forall (src0 : Src) (sched : list action) (d : bytes)
             (x : option error),
        let s := run sched (newBufReader src0) in
        In (0, d, x) (read_log s) ->
        d = [] /\ x = err (rd s) /\ x <> None).
Proof.
  split; [|split; [|split]].
  - apply Read_zero.
  - intros s e Hc He. cbv zeta.
    destruct (call_is_Read 0 s Hc) as (Hr & _ & _ & _ & Hres).
    rewrite Read_zero, He in Hr, Hres. simpl in Hr, Hres.
    destruct Hres as [Hc' Hl]. auto.
  - apply call_zero_parks.
  - intros src0 sched d x. cbv zeta. intros Hin.
    destruct (reachable_Inv src0 sched) as [_ _ _ Hl _].
    rewrite Forall_forall in Hl. apply Hl in Hin. simpl in Hin.
    destruct Hin as [(_ & Hne & Hlen)|H]; auto.
    destruct d; [congruence | simpl in Hlen; lia].
Qed.

End Reader.

Arguments buf {Src} _.
Arguments reader {Src} _.
Arguments err {Src} _.
Arguments Read {Src} _ _.
Arguments drain_iter {Src} _ _ _.
Arguments drain {Src} _ _ _ _.
Arguments rd {Src} _.
Arguments mu {Src} _.
Arguments dpc {Src} _.
Arguments cpc {Src} _.
Arguments src_log {Src} _.
Arguments read_log {Src} _.
Arguments newBufReader {Src} _.
Arguments exec {Src} _ _ _ _.
Arguments run {Src} _ _ _ _.
Arguments produced {Src} _.
Arguments accepted {Src} _.
Arguments delivered {Src} _.
Arguments pending {Src} _.
Arguments Inv {Src} _.
End AsyncReader.

(** ** [bufReader] over a finite stream *)
Module StreamReader.
Import AsyncReader.

Section Stream.
Variable bs : bytes.
Variable chunk : nat.
Hypothesis chunk_pos : 0 < chunk.

Local Notation "'srun'" := (run stream_Read chunk).
Local Notation "'sexec'" := (exec stream_Read chunk).

(** [drain] has been told that the stream is at its end. *)
Definition stream_ended (pc : drain_pc) : bool :=
  match pc with
  | DStore _ e | DLock e | DSignal e | DUnlock e => is_err e
  | DDone => true
  | DRead => false
  end.

Definition eof_only (r : bytes * option error) : Prop :=
  snd r = None \/ snd r = Some io_EOF.

(** What is left of the stream follows what was read from it; no byte
    came with an error, and the only error is [io.EOF]; once the end was
    reported nothing is left. *)
Definition SInv (s : sys bytes) : Prop :=
  accepted s ++ reader (rd s) = bs
  /\ produced s = accepted s
  /\ Forall eof_only (src_log s)
  /\ (stream_ended (dpc s) = true -> reader (rd s) = []).

(** Steps [drain] still has to make, at most, when nobody holds the
    mutex against it. *)
Definition rounds (rem : bytes) : nat := 5 * (length rem + 1).

Definition fuel_left (s : sys bytes) : nat :=
  let more (e : option error) :=
    if is_err e then 0 else rounds (reader (rd s)) in
  match dpc s with
  | DRead => rounds (reader (rd s))
  | DStore _ e => 4 + more e
  | DLock e => 3 + more e
  | DSignal e => 2 + more e
  | DUnlock e => 1 + more e
  | DDone => 0
  end.

Lemma SInv_exec (a : action) (s : sys bytes) :
  SInv s -> SInv (sexec a s).
Proof using Type.
  intros (Hacc & Hprod & Heof & Hend).
  destruct s as [[b rem x] m d c sl rl].
  unfold SInv, accepted, produced in *. simpl in *.
  assert (Hsame : accepted_of sl ++ rem = bs
                  /\ concat (map fst sl) = accepted_of sl
                  /\ Forall eof_only sl
                  /\ (stream_ended d = true -> rem = [])) by auto.
  unfold exec, step, step_cons, step_drain.
  destruct a as [| |plen]; simpl.
  - destruct d as [|data e|e|e|e|]; simpl; auto.
    + destruct rem as [|y rem].
      * simpl. rewrite accepted_of_snoc, map_app, concat_app. simpl.
        rewrite !app_nil_r in *. repeat split; auto.
        apply Forall_app. split; auto.
        constructor; [right; reflexivity | constructor].
      * cbn [stream_Read dpc rd reader src_log stream_ended is_err].
        rewrite accepted_of_snoc, map_app, concat_app.
        cbn [map concat fst]. rewrite app_nil_r, <- app_assoc.
        rewrite firstn_skipn. repeat split; try congruence.
        apply Forall_app. split; auto.
        constructor; [left; reflexivity | constructor].
    + destruct e; simpl; auto.
    + destruct m; simpl; auto.
    + destruct e; simpl in *; auto.
  - destruct c as [|plen|plen|plen|plen|plen|plen|plen]; simpl; auto.
    + destruct (Buffer.Read plen b) as [[data e] b'].
      destruct (0 <? length data); simpl; auto.
    + destruct x; simpl; auto.
    + destruct m; simpl; auto.
    + destruct m; simpl; auto.
  - destruct c; simpl; auto.
Qed.

Lemma SInv_run (sched : list action) (s : sys bytes) :
  SInv s -> SInv (srun sched s).
Proof using Type.
  unfold run. revert s.
  induction sched as [|a sched IH]; intros s H; simpl; auto.
  apply IH, SInv_exec, H.
Qed.

Lemma SInv_init : SInv (newBufReader bs).
Proof using Type. repeat split; simpl; auto. discriminate. Qed.



Lemma fuel_left_bound (s : sys bytes) :
  SInv s -> fuel_left s <= 5 * (length bs + 2).
Proof using Type.
  clear chunk_pos. intros (Hacc & _).
  assert (Hlen : length (reader (rd s)) <= length bs).
  { rewrite <- Hacc, length_app. lia. }
  unfold fuel_left, rounds.
  destruct (dpc s) as [|data e|e|e|e|]; try destruct e; simpl; lia.
Qed.

(** [drain] running alone on a stream ends, having appended all of
    it. *)
Lemma drain_stream (n : nat) (r : bufReader bytes) :
  length (reader r) <= n ->
  drain stream_Read chunk (S n) r
  = Some {| buf := buf r ++ reader r; reader := []; err := Some io_EOF |}.
Proof using chunk_pos.
  revert r. induction n as [|n IH]; intros [b rem x] Hlen; simpl in Hlen.
  - destruct rem; [|simpl in Hlen; lia].
    simpl. rewrite app_nil_r. reflexivity.
  - destruct rem as [|y rem].
    + simpl. rewrite app_nil_r. reflexivity.
    + change (drain stream_Read chunk (S (S n))
                {| buf := b; reader := y :: rem; err := x |})
        with (drain stream_Read chunk (S n)
                {| buf := b ++ firstn chunk (y :: rem);
                   reader := skipn chunk (y :: rem); err := x |}).
      rewrite IH.
      * simpl buf. simpl reader.
        rewrite <- app_assoc, firstn_skipn. reflexivity.
      * cbn [reader]. rewrite length_skipn. cbn [length] in *. lia.
Qed.


End Stream.


End StreamReader.

(** ** [bufReader] on concrete readers *)
Module ReaderRuns.
Import AsyncReader StreamReader.

Definition hello : bytes := ["h"; "e"; "l"; "l"; "o"]%byte.

(** A call that finds the buffer empty and no error, then [drain] from
    start to end, then the call going on to [Lock] and [Wait]. *)
Definition overtaken : list action :=
  [ActCall 8; ActCons; ActCons] ++ repeat ActDrain 10 ++ [ActCons; ActCons].


(** A reader that is never called, for statements about [Read] alone. *)
Definition no_Read (s : unit) (n : nat) : (bytes * option error) * unit :=
  (([], Some io_EOF), s).


(** [drain] from start to end, then one call of [Read]. *)
Definition drained_and_read : list action :=
  repeat ActDrain 35 ++ reads [8].


Definition drained_and_read_nothing : list action :=
  repeat ActDrain 35 ++ reads [0].

(** "hello" then end of stream, drained two bytes at a time and read
    with lengths 2, 2, 2, 2: the reads yield "he", "ll", "o", and then
    the end of stream. *)
Example hello_then_EOF :
  read_log
    (run stream_Read 2 (repeat ActDrain 35 ++ reads [2; 2; 2; 2])
       (newBufReader hello))
  = [(2, ["h"; "e"]%byte, None); (2, ["l"; "l"]%byte, None);
     (2, ["o"]%byte, None); (2, [], Some io_EOF)].
Proof. vm_compute. reflexivity. Qed.

(** The same stream with the caller running ahead of [drain]: a call
    that finds nothing parks in [Wait], is woken by the signal, and
    returns the bytes. *)
Example hello_interleaved :
  let s := run stream_Read drain_buf_len
             ([ActCall 8; ActCons; ActCons; ActCons; ActCons]
              ++ repeat ActDrain 5 ++ [ActCons; ActCons; ActCons])
             (newBufReader hello) in
  read_log s = [(8, hello, None)] /\ cpc s = CIdle.
Proof. vm_compute. split; reflexivity. Qed.

(** The check of lines 108-112 is made without the mutex: a call that
    has found the buffer empty and no error, and is overtaken by [drain]
    before it reaches [Lock], parks after the last signal and stays
    parked under every schedule, with "hello" in the buffer. *)
Lemma wakeup_can_be_lost (sched : list action) :
  let s := run stream_Read drain_buf_len (overtaken ++ sched)
             (newBufReader hello) in
  cpc s = CParked 8 /\ dpc s = DDone /\ buf (rd s) = hello
  /\ read_log s = [].
Proof.
  cbv zeta. rewrite run_app.
  remember (run stream_Read drain_buf_len overtaken (newBufReader hello))
    as s eqn:Es.
  assert (H : cpc s = CParked 8 /\ dpc s = DDone /\ buf (rd s) = hello
              /\ read_log s = [])
    by (subst s; vm_compute; repeat split).
  clear Es. revert s H. unfold run.
  induction sched as [|a sched IH]; intros s H; simpl; auto.
  apply IH. destruct H as (Hc & Hd & Hb & Hl).
  destruct s as [r m d c sl rl]. simpl in *. subst c d.
  destruct a; cbv [exec step step_drain step_cons dpc cpc]; simpl; auto.
Qed.

(** For the same reason a call that has found the buffer empty can be
    overtaken by both the data and the end of stream, and return the end
    of stream with "hello" unread in the buffer. *)
Lemma error_can_overtake_data :
  let s := run stream_Read drain_buf_len
             ([ActCall 8; ActCons] ++ repeat ActDrain 7 ++ [ActCons])
             (newBufReader hello) in
  read_log s = [(8, [], Some io_EOF)] /\ buf (rd s) = hello
  /\ cpc s = CIdle.
Proof. vm_compute. repeat split. Qed.


(** C2 as it is worded fails for an empty destination: with "hello"
    buffered and the end of stream recorded, [Read] returns 0 bytes and
    the error, and the five bytes stay in the buffer. *)
Lemma Read_empty_destination_returns_error_over_data :
  let r := {| buf := hello; reader := tt; err := Some io_EOF |} in
  buf r <> [] /\ Read 0 r = (Returned [] (Some io_EOF), r).
Proof. split; [discriminate | reflexivity]. Qed.

(** *** The theorems at concrete inputs *)


Lemma Read_returns_buffered_data_witness :
  let r := {| buf := hello; reader := tt; err := Some io_EOF |} in
  0 < 3
  /\ buf r <> []
  /\ Read 3 r
     = (Returned (firstn 3 (buf r)) None,
        {| buf := skipn 3 (buf r); reader := reader r; err := err r |})
  /\ firstn 3 (buf r) = ["h"; "e"; "l"]%byte.
Proof.
  cbv zeta.
  assert (Hb : buf {| buf := hello; reader := tt; err := Some io_EOF |}
               <> []) by discriminate.
  split; [lia|]. split; [exact Hb|]. split; [|reflexivity].
  destruct (Read_returns_buffered_data unit no_Read 0) as (H & _).
  exact (proj1 (H {| buf := hello; reader := tt; err := Some io_EOF |} 3
                  (Nat.lt_0_succ 2) Hb)).
Defined.

Lemma Read_terminal_idempotent_witness :
  let s := run stream_Read 2 drained_and_read (newBufReader hello) in
  err (rd s) = Some io_EOF /\ buf (rd s) = [] /\ cpc s = CIdle
  /\ forall sched2,
       err (rd (run stream_Read 2 sched2 s)) = Some io_EOF
       /\ buf (rd (run stream_Read 2 sched2 s)) = []
       /\ exists ks,
            read_log (run stream_Read 2 sched2 s)
            = read_log s ++ map (fun k => (k, [], Some io_EOF)) ks.
Proof.
  cbv zeta.
  assert (He : err (rd (run stream_Read 2 drained_and_read
                          (newBufReader hello))) = Some io_EOF)
    by (vm_compute; reflexivity).
  assert (Hb : buf (rd (run stream_Read 2 drained_and_read
                          (newBufReader hello))) = [])
    by (vm_compute; reflexivity).
  assert (Hc : cpc (run stream_Read 2 drained_and_read
                      (newBufReader hello)) = CIdle)
    by (vm_compute; reflexivity).
  split; [exact He|]. split; [exact Hb|]. split; [exact Hc|]. intros sched2.
  destruct (Read_terminal_idempotent bytes stream_Read 2) as (_ & _ & H).
  destruct (H hello drained_and_read sched2 io_EOF He Hb Hc)
    as (H1 & H2 & _ & H4 & _).
  split; [exact H1|]. split; [exact H2 | exact H4].
Defined.


Lemma Read_with_empty_destination_witness :
  let s := run stream_Read 2 drained_and_read_nothing (newBufReader hello) in
  In (0, [], Some io_EOF) (read_log s)
  /\ buf (rd s) = hello
  /\ Some io_EOF = err (rd s).
Proof.
  cbv zeta.
  assert (Hin : In (0, [], Some io_EOF)
                  (read_log (run stream_Read 2 drained_and_read_nothing
                               (newBufReader hello))))
    by (vm_compute; left; reflexivity).
  split; [exact Hin|]. split; [vm_compute; reflexivity|].
  destruct (Read_with_empty_destination bytes stream_Read 2)
    as (_ & _ & _ & H).
  exact (proj1 (proj2 (H hello drained_and_read_nothing [] (Some io_EOF)
                         Hin))).
Defined.

End ReaderRuns.

(** ** [container/list] as [writeBroadcaster] uses it

    An [*list.Element] is a pointer: two elements holding the same value
    are different elements.  The pointer is modelled by a number [eid]
    that [PushBack] allocates from a counter. *)
Module GoList.
Section Lists.
Variable V : Type.

Record Element : Type := mkElement { eid : nat; Value : V }.

Record List : Type := mkList { elems : list Element; next : nat }.

Definition New : List := {| elems := []; next := 0 |}.

Definition PushBack (v : V) (l : List) : List :=
  {| elems := elems l ++ [{| eid := next l; Value := v |}];
     next := S (next l) |}.

(** [l.Remove(e)]: unlinks [e] when it is an element of [l], and does
    nothing otherwise. *)
Definition Remove (e : Element) (l : List) : List :=
  {| elems := filter (fun x => negb (eid x =? eid e)) (elems l);
     next := next l |}.

(** Pointers of live elements are distinct and were allocated. *)
Definition wf (l : List) : Prop :=
  NoDup (map eid (elems l)) /\ Forall (fun e => eid e < next l) (elems l).
End Lists.

Arguments eid {V} _.
Arguments Value {V} _.
Arguments elems {V} _.
Arguments next {V} _.
Arguments PushBack {V} _ _.
Arguments Remove {V} _ _.
Arguments wf {V} _.
End GoList.

(** ** [writeBroadcaster] *)
Module Broadcast.
Import GoList.

Section Sinks.
(** The registered [io.WriteCloser] values, compared with [==], and the
    state their methods act on. *)
Variable sink : Type.
Variable sink_eqb : sink -> sink -> bool.
Variable World : Type.
Variable sink_Write : sink -> bytes -> World -> (Z * option error) * World.
Variable sink_Close : sink -> World -> option error * World.

(** Ghost trace of the calls made on sinks, with what they returned. *)
Inductive event : Type :=
| EvWrite (e : Element sink) (p : bytes) (n : Z) (err : option error)
| EvClose (e : Element sink) (err : option error).

Definition ev_elem (ev : event) : Element sink :=
  match ev with EvWrite e _ _ _ => e | EvClose e _ => e end.

Record world : Type := mkWorld { sinks : World; trace : list event }.

Record writeBroadcaster : Type := mkWB { writers : List sink }.

Definition newWriteBroadcaster : writeBroadcaster :=
  {| writers := New sink |}.

Definition AddWriter (writer : sink) (b : writeBroadcaster)
  : writeBroadcaster :=
  {| writers := PushBack writer (writers b) |}.

(** The loop of [RemoveWriter]: the first element whose value is
    [writer], if any. *)
Fixpoint find_writer (writer : sink) (es : list (Element sink))
  : option (Element sink) :=
  match es with
  | [] => None
  | e :: rest =>
      if sink_eqb (Value e) writer then Some e else find_writer writer rest
  end.

Definition RemoveWriter (writer : sink) (b : writeBroadcaster)
  : writeBroadcaster :=
  match find_writer writer (elems (writers b)) with
  | Some e => {| writers := Remove e (writers b) |}
  | None => b
  end.

(** The test of line 152: [err != nil || n != len(p)]. *)
Definition write_failed (p : bytes) (n : Z) (err : option error) : bool :=
  is_err err || negb (n =? Z.of_nat (length p))%Z.

(** First loop of [Write]: one [writer.Write(p)] per element, in list
    order; the elements whose write failed are appended to [failed]. *)
Fixpoint write_pass (es : list (Element sink)) (p : bytes)
    (failed : list (Element sink)) (w : world)
  : list (Element sink) * world :=
  match es with
  | [] => (failed, w)
  | e :: rest =>
      let '((n, err), st) := sink_Write (Value e) p (sinks w) in
      let w' := {| sinks := st; trace := trace w ++ [EvWrite e p n err] |} in
      if write_failed p n err
      then write_pass rest p (failed ++ [e]) w'
      else write_pass rest p failed w'
  end.

(** Second loop of [Write]: [for _, e := range failed]. *)
Definition remove_failed (failed : list (Element sink)) (l : List sink)
  : List sink :=
  fold_left (fun l e => Remove e l) failed l.

Definition Write (b : writeBroadcaster) (p : bytes) (w : world)
  : (Z * option error) * writeBroadcaster * world :=
  let '(failed, w') := write_pass (elems (writers b)) p [] w in
  ((Z.of_nat (length p), None),
   {| writers := remove_failed failed (writers b) |},
   w').

(** The loop of [Close]: every sink is closed, what it returns is
    dropped. *)
Fixpoint close_pass (es : list (Element sink)) (w : world) : world :=
  match es with
  | [] => w
  | e :: rest =>
      let '(err, st) := sink_Close (Value e) (sinks w) in
      close_pass rest {| sinks := st; trace := trace w ++ [EvClose e err] |}
  end.

Definition Close (b : writeBroadcaster) (w : world)
  : option error * writeBroadcaster * world :=
  (None, b, close_pass (elems (writers b)) w).

(** What an owner can do with a broadcaster, and a run of such calls. *)
Inductive op : Type :=
| OpAdd (s : sink)
| OpRemove (s : sink)
| OpWrite (p : bytes)
| OpClose.

Definition run_op (o : op) (bw : writeBroadcaster * world)
  : writeBroadcaster * world :=
  let '(b, w) := bw in
  match o with
  | OpAdd s => (AddWriter s b, w)
  | OpRemove s => (RemoveWriter s b, w)
  | OpWrite p => let '(_, b', w') := Write b p w in (b', w')
  | OpClose => let '(_, b', w') := Close b w in (b', w')
  end.

Definition run_ops (os : list op) (bw : writeBroadcaster * world)
  : writeBroadcaster * world :=
  fold_left (fun bw o => run_op o bw) os bw.

(** The events a run appended to the trace. *)
Definition events_since (w w' : world) : list event :=
  skipn (length (trace w)) (trace w').

Definition wrote_to (p : bytes) (ev : event) : Prop :=
  match ev with EvWrite _ q _ _ => q = p | EvClose _ _ => False end.

Definition ev_failed (ev : event) : bool :=
  match ev with
  | EvWrite _ p n err => write_failed p n err
  | EvClose _ _ => false
  end.

Definition survives (failed : list (Element sink)) (x : Element sink)
  : bool :=
  negb (existsb (fun f => eid x =? eid f) failed).

(** [PushBack] allocates increasing pointers and appends, and nothing
    reorders the list: the elements are linked in the order in which
    they were registered. *)
Definition in_order (l : List sink) : Prop :=
  StronglySorted lt (map eid (elems l)).

(** The pointer of [e] was allocated by this list and is no longer
    linked in it. *)
Definition gone (e : Element sink) (l : List sink) : Prop :=
  eid e < next l /\ ~ In (eid e) (map eid (elems l)).

(** No element of the list holds the sink [s]. *)
Definition absent (s : sink) (l : List sink) : Prop :=
  ~ In s (map Value (elems l)).

(** The broadcaster after [AddWriter] for each sink of [ss], in order. *)
Definition registered (ss : list sink) : writeBroadcaster :=
  fold_left (fun b s => AddWriter s b) ss newWriteBroadcaster.

(** *** The trace of one pass *)

Lemma events_since_app (w w' : world) (evs : list event) :
  trace w' = trace w ++ evs -> events_since w w' = evs.
Proof.
  unfold events_since. intros ->.
  rewrite skipn_app, skipn_all, Nat.sub_diag. reflexivity.
Qed.

Lemma write_pass_spec (p : bytes) (es failed : list (Element sink))
    (w : world) :
  exists evs,
    trace (snd (write_pass es p failed w)) = trace w ++ evs
    /\ map ev_elem evs = es
    /\ Forall (wrote_to p) evs
    /\ fst (write_pass es p failed w)
       = failed ++ map ev_elem (filter ev_failed evs).
Proof.
  revert failed w. induction es as [|e rest IH]; intros failed w; simpl.
  - exists []. simpl. rewrite !app_nil_r. repeat split; auto.
  - destruct (sink_Write (Value e) p (sinks w)) as [[n err] st] eqn:Hw.
    destruct (write_failed p n err) eqn:Hf.
    + destruct (IH (failed ++ [e])
                  {| sinks := st; trace := trace w ++ [EvWrite e p n err] |})
        as (evs & Ht & Hm & Hp & Hfl).
      exists (EvWrite e p n err :: evs). simpl in *.
      rewrite Hf, Ht, Hfl, <- !app_assoc. simpl.
      repeat split; auto; [congruence | constructor; simpl; auto].
    + destruct (IH failed
                  {| sinks := st; trace := trace w ++ [EvWrite e p n err] |})
        as (evs & Ht & Hm & Hp & Hfl).
      exists (EvWrite e p n err :: evs). simpl in *.
      rewrite Hf, Ht, Hfl, <- !app_assoc. simpl.
      repeat split; auto; [congruence | constructor; simpl; auto].
Qed.

Lemma close_pass_spec (es : list (Element sink)) (w : world) :
  exists evs,
    trace (close_pass es w) = trace w ++ evs
    /\ map ev_elem evs = es
    /\ Forall (fun ev => exists e err, ev = EvClose e err) evs.
Proof.
  revert w. induction es as [|e rest IH]; intros w; simpl.
  - exists []. rewrite app_nil_r. auto.
  - destruct (sink_Close (Value e) (sinks w)) as [err st].
    destruct (IH {| sinks := st; trace := trace w ++ [EvClose e err] |})
      as (evs & Ht & Hm & Hc).
    exists (EvClose e err :: evs). simpl in *.
    rewrite Ht, <- app_assoc. simpl. repeat split; auto.
    + congruence.
    + constructor; eauto.
Qed.

(** *** What the removal loop leaves *)

Lemma remove_failed_elems (failed : list (Element sink)) (l : List sink) :
  elems (remove_failed failed l) = filter (survives failed) (elems l)
  /\ next (remove_failed failed l) = next l.
Proof.
  unfold remove_failed. revert l.
  induction failed as [|f rest IH]; intros l; simpl.
  - split; auto. unfold survives. simpl.
    induction (elems l) as [|x xs IHx]; simpl; congruence.
  - destruct (IH (Remove f l)) as [He Hn]. rewrite He, Hn. simpl.
    split; auto. clear.
    induction (elems l) as [|x xs IHx]; simpl; auto.
    unfold survives at 2. simpl.
    destruct (eid x =? eid f); simpl; auto.
    unfold survives at 1. fold (survives rest x).
    destruct (survives rest x); simpl; congruence.
Qed.

Lemma survives_true (failed : list (Element sink)) (x : Element sink) :
  survives failed x = true <-> (forall f, In f failed -> eid f <> eid x).
Proof.
  unfold survives. rewrite negb_true_iff. split.
  - intros H f Hf Heq.
    assert (existsb (fun f0 => eid x =? eid f0) failed = true).
    { apply existsb_exists. exists f. split; auto.
      apply Nat.eqb_eq. auto. }
    congruence.
  - intros H. destruct (existsb _ failed) eqn:E; auto.
    apply existsb_exists in E. destruct E as (f & Hf & Heq).
    apply Nat.eqb_eq in Heq. exfalso. eapply H; eauto.
Qed.

Lemma NoDup_map_inj {A B : Type} (g : A -> B) (l : list A) (a b : A) :
  NoDup (map g l) -> In a l -> In b l -> g a = g b -> a = b.
Proof.
  induction l as [|x xs IH]; simpl; intros Hnd Ha Hb Hg; [tauto|].
  inversion Hnd as [|? ? Hnotin Hnd']; subst.
  destruct Ha as [->|Ha], Hb as [->|Hb]; auto.
  - exfalso. apply Hnotin. rewrite Hg. apply in_map. auto.
  - exfalso. apply Hnotin. rewrite <- Hg. apply in_map. auto.
Qed.

Lemma filter_map_comm {A B : Type} (g : A -> B) (f : B -> bool)
    (l : list A) :
  filter f (map g l) = map g (filter (fun a => f (g a)) l).
Proof.
  induction l as [|a l IH]; simpl; auto.
  destruct (f (g a)); simpl; congruence.
Qed.

(** With distinct element pointers, an element survives the removal
    loop exactly when its own write did not fail. *)
Lemma survives_own_write (evs : list event) (ev : event) :
  NoDup (map eid (map ev_elem evs)) ->
  In ev evs ->
  survives (map ev_elem (filter ev_failed evs)) (ev_elem ev)
  = negb (ev_failed ev).
Proof.
  intros Hnd Hin. rewrite map_map in Hnd.
  destruct (ev_failed ev) eqn:Hf; simpl.
  - unfold survives. apply negb_false_iff, existsb_exists.
    exists (ev_elem ev). split; [|apply Nat.eqb_refl].
    apply in_map, filter_In. auto.
  - apply survives_true. intros f Hfin Heq.
    apply in_map_iff in Hfin. destruct Hfin as (ev' & <- & Hin').
    apply filter_In in Hin'. destruct Hin' as [Hin' Hf'].
    assert (ev' = ev)
      by (eapply (NoDup_map_inj (fun x => eid (ev_elem x))); eauto).
    congruence.
Qed.

(** One call of [Write], seen through the trace. *)
Lemma Write_spec (b : writeBroadcaster) (p : bytes) (w : world) :
  exists evs,
    trace (snd (Write b p w)) = trace w ++ evs
    /\ map ev_elem evs = elems (writers b)
    /\ Forall (wrote_to p) evs
    /\ next (writers (snd (fst (Write b p w)))) = next (writers b)
    /\ elems (writers (snd (fst (Write b p w))))
       = filter (survives (map ev_elem (filter ev_failed evs)))
           (elems (writers b)).
Proof.
  unfold Write.
  destruct (write_pass_spec p (elems (writers b)) [] w)
    as (evs & Ht & Hm & Hp & Hfl).
  destruct (write_pass (elems (writers b)) p [] w) as [failed w'].
  simpl in *. subst failed.
  destruct (remove_failed_elems (map ev_elem (filter ev_failed evs))
              (writers b)) as [He Hn].
  exists evs. auto.
Qed.

Lemma Write_survivors (b : writeBroadcaster) (p : bytes) (w : world) :
  wf (writers b) ->
  elems (writers (snd (fst (Write b p w))))
  = map ev_elem
      (filter (fun ev => negb (ev_failed ev))
         (events_since w (snd (Write b p w)))).
Proof.
  intros [Hnd _].
  destruct (Write_spec b p w) as (evs & Ht & Hm & _ & _ & He).
  rewrite (events_since_app _ _ _ Ht), He, <- Hm, filter_map_comm.
  f_equal. apply filter_ext_in. intros ev Hin.
  apply survives_own_write; auto. rewrite Hm. exact Hnd.
Qed.

Lemma Write_wf (b : writeBroadcaster) (p : bytes) (w : world) :
  wf (writers b) -> wf (writers (snd (fst (Write b p w)))).
Proof.
  intros [Hnd Hlt].
  destruct (Write_spec b p w) as (evs & _ & _ & _ & Hn & He).
  unfold wf. rewrite Hn, He. split.
  - clear -Hnd. induction (elems (writers b)) as [|x xs IH]; simpl; auto.
    inversion Hnd as [|? ? Hnotin Hnd']; subst.
    destruct (survives _ x); simpl; auto.
    constructor; auto. intros Hin. apply Hnotin.
    apply in_map_iff in Hin. destruct Hin as (y & Hy & Hin).
    apply filter_In in Hin. rewrite <- Hy. apply in_map. tauto.
  - apply Forall_forall. intros x Hin. apply filter_In in Hin.
    rewrite Forall_forall in Hlt. apply Hlt. tauto.
Qed.

Lemma Close_spec (b : writeBroadcaster) (w : world) :
  exists evs,
    trace (snd (Close b w)) = trace w ++ evs
    /\ map ev_elem evs = elems (writers b)
    /\ Forall (fun ev => exists e err, ev = EvClose e err) evs.
Proof. unfold Close. simpl. apply close_pass_spec. Qed.

(** *** Well-formedness is kept by every operation *)

Lemma filter_wf (f : Element sink -> bool) (l : List sink) :
  wf l -> wf {| elems := filter f (elems l); next := next l |}.
Proof.
  intros [Hnd Hlt]. split; simpl.
  - clear -Hnd. induction (elems l) as [|x xs IH]; simpl; auto.
    inversion Hnd as [|? ? Hnotin Hnd']; subst.
    destruct (f x); simpl; auto.
    constructor; auto. intros Hin. apply Hnotin.
    apply in_map_iff in Hin. destruct Hin as (y & Hy & Hin).
    apply filter_In in Hin. rewrite <- Hy. apply in_map. tauto.
  - apply Forall_forall. intros x Hin. apply filter_In in Hin.
    rewrite Forall_forall in Hlt. apply Hlt. tauto.
Qed.

Lemma newWriteBroadcaster_wf : wf (writers newWriteBroadcaster).
Proof. split; simpl; constructor. Qed.

Lemma AddWriter_wf (s : sink) (b : writeBroadcaster) :
  wf (writers b) -> wf (writers (AddWriter s b)).
Proof.
  clear sink_eqb sink_Write sink_Close.
  intros [Hnd Hlt]. rewrite Forall_forall in Hlt. split; simpl.
  - rewrite map_app. simpl. apply NoDup_app; auto.
    + repeat constructor. simpl. tauto.
    + intros x Hin [Hx|[]]. subst x.
      apply in_map_iff in Hin. destruct Hin as (y & Hy & Hin).
      apply Hlt in Hin. lia.
  - apply Forall_forall. intros x Hin. apply in_app_or in Hin.
    destruct Hin as [Hin|[<-|[]]]; simpl; auto.
    apply Hlt in Hin. lia.
Qed.

Lemma RemoveWriter_wf (s : sink) (b : writeBroadcaster) :
  wf (writers b) -> wf (writers (RemoveWriter s b)).
Proof.
  intros H. unfold RemoveWriter.
  destruct (find_writer s (elems (writers b))); auto.
  simpl. apply filter_wf. exact H.
Qed.

Lemma run_ops_wf (os : list op) (b : writeBroadcaster) (w : world) :
  wf (writers b) -> wf (writers (fst (run_ops os (b, w)))).
Proof.
  unfold run_ops. revert b w.
  induction os as [|o os IH]; intros b w H; simpl; auto.
  destruct o; simpl.
  - apply IH, AddWriter_wf, H.
  - apply IH, RemoveWriter_wf, H.
  - pose proof (Write_wf b p w H) as H'.
    destruct (Write b p w) as [[r b'] w']. apply IH, H'.
  - apply IH, H.
Qed.

(** *** The list is in the order of registration *)

Lemma sorted_filter (f : Element sink -> bool) (es : list (Element sink)) :
  StronglySorted lt (map eid es) ->
  StronglySorted lt (map eid (filter f es)).
Proof.
  induction es as [|x xs IH]; simpl; intros H; auto.
  inversion H as [|? ? Hs Hall]; subst.
  destruct (f x); simpl; auto.
  constructor; auto.
  rewrite Forall_forall in *. intros n Hn. apply Hall.
  apply in_map_iff in Hn. destruct Hn as (y & <- & Hy).
  apply filter_In in Hy. apply in_map. tauto.
Qed.

Lemma sorted_snoc (ns : list nat) (n : nat) :
  StronglySorted lt ns -> Forall (fun k => k < n) ns ->
  StronglySorted lt (ns ++ [n]).
Proof.
  induction ns as [|k ks IH]; simpl; intros Hs Hall.
  - repeat constructor.
  - inversion Hs as [|? ? Hs' Hk]; subst.
    inversion Hall as [|? ? Hkn Hall']; subst.
    constructor; auto. apply Forall_app. split; auto.
Qed.

Lemma run_op_in_order (o : op) (b : writeBroadcaster) (w : world) :
  wf (writers b) -> in_order (writers b) ->
  in_order (writers (fst (run_op o (b, w)))).
Proof.
  intros [_ Hlt] Hs. unfold in_order in *.
  destruct o as [s|s|p|]; simpl.
  - rewrite map_app. simpl. apply sorted_snoc; auto.
    rewrite Forall_forall in *. intros n Hn.
    apply in_map_iff in Hn. destruct Hn as (y & <- & Hy). auto.
  - unfold RemoveWriter.
    destruct (find_writer s (elems (writers b))); auto.
    simpl. apply sorted_filter, Hs.
  - destruct (Write_spec b p w) as (evs & _ & _ & _ & _ & He).
    destruct (Write b p w) as [[r b'] w']. simpl in *.
    rewrite He. apply sorted_filter, Hs.
  - exact Hs.
Qed.

Lemma run_ops_in_order (os : list op) (b : writeBroadcaster) (w : world) :
  wf (writers b) -> in_order (writers b) ->
  in_order (writers (fst (run_ops os (b, w)))).
Proof.
  unfold run_ops. revert b w.
  induction os as [|o os IH]; intros b w Hwf Hs; cbn [fold_left]; auto.
  pose proof (run_op_in_order o b w Hwf Hs) as Hs1.
  pose proof (run_ops_wf [o] b w Hwf) as Hwf1.
  unfold run_ops in Hwf1. cbn [fold_left] in Hwf1.
  destruct (run_op o (b, w)) as [b1 w1]. cbn [fst] in *.
  apply IH; auto.
Qed.

(** *** An evicted element stays out *)

Lemma gone_filter (e : Element sink) (f : Element sink -> bool)
    (l : List sink) :
  gone e l -> gone e {| elems := filter f (elems l); next := next l |}.
Proof.
  intros [Hlt Hnot]. split; simpl; auto.
  intros Hin. apply Hnot.
  apply in_map_iff in Hin. destruct Hin as (y & Hy & Hin).
  apply filter_In in Hin. rewrite <- Hy. apply in_map. tauto.
Qed.

Lemma pass_avoids (e : Element sink) (l : List sink) (evs : list event) :
  gone e l -> map ev_elem evs = elems l ->
  Forall (fun ev => eid (ev_elem ev) <> eid e) evs.
Proof.
  intros [_ Hnot] Hm. apply Forall_forall. intros ev Hin Heq.
  apply Hnot. rewrite <- Heq, <- Hm, map_map.
  apply (in_map (fun x => eid (ev_elem x))). exact Hin.
Qed.

Lemma run_op_gone (e : Element sink) (o : op) (b : writeBroadcaster)
    (w : world) :
  gone e (writers b) ->
  gone e (writers (fst (run_op o (b, w))))
  /\ exists evs,
       trace (snd (run_op o (b, w))) = trace w ++ evs
       /\ Forall (fun ev => eid (ev_elem ev) <> eid e) evs.
Proof.
  intros Hg. destruct o as [s|s|p|]; simpl.
  - split.
    + destruct Hg as [Hlt Hnot]. split; simpl; [lia|].
      rewrite map_app, in_app_iff. simpl. intros [H|[H|[]]]; auto. lia.
    + exists []. rewrite app_nil_r. auto.
  - split.
    + unfold RemoveWriter.
      destruct (find_writer s (elems (writers b))); auto.
      simpl. apply gone_filter, Hg.
    + exists []. rewrite app_nil_r. auto.
  - destruct (Write_spec b p w) as (evs & Ht & Hm & _ & Hn & He).
    destruct (Write b p w) as [[r b'] w']. simpl in *. split.
    + destruct b' as [l']. simpl in *. destruct l' as [es' n']. simpl in *.
      subst es' n'. apply gone_filter, Hg.
    + exists evs. split; auto. eapply pass_avoids; eauto.
  - destruct (Close_spec b w) as (evs & Ht & Hm & _). simpl in *.
    split; auto. exists evs. split; auto. eapply pass_avoids; eauto.
Qed.

Lemma run_ops_gone (e : Element sink) (os : list op) (b : writeBroadcaster)
    (w : world) :
  gone e (writers b) ->
  exists evs,
    trace (snd (run_ops os (b, w))) = trace w ++ evs
    /\ Forall (fun ev => eid (ev_elem ev) <> eid e) evs.
Proof.
  unfold run_ops. revert b w.
  induction os as [|o os IH]; intros b w Hg; cbn [fold_left].
  - exists []. rewrite app_nil_r. auto.
  - destruct (run_op_gone e o b w Hg) as (Hg' & evs1 & Ht1 & Hf1).
    destruct (run_op o (b, w)) as [b1 w1]. cbn [fst snd] in *.
    destruct (IH b1 w1 Hg') as (evs2 & Ht2 & Hf2).
    exists (evs1 ++ evs2). rewrite Ht2, Ht1, app_assoc. split; auto.
    apply Forall_app. auto.
Qed.

Lemma absent_filter (s : sink) (f : Element sink -> bool) (l : List sink) :
  absent s l -> absent s {| elems := filter f (elems l); next := next l |}.
Proof.
  clear sink_eqb sink_Write sink_Close.
  unfold absent. simpl. intros Hnot Hin. apply Hnot.
  apply in_map_iff in Hin. destruct Hin as (y & Hy & Hin).
  apply filter_In in Hin. rewrite <- Hy. apply in_map. tauto.
Qed.

Lemma pass_skips (s : sink) (l : List sink) (evs : list event) :
  absent s l -> map ev_elem evs = elems l ->
  Forall (fun ev => Value (ev_elem ev) <> s) evs.
Proof.
  unfold absent. intros Hnot Hm. apply Forall_forall. intros ev Hin Heq.
  apply Hnot. rewrite <- Heq, <- Hm, map_map.
  apply (in_map (fun x => Value (ev_elem x))). exact Hin.
Qed.

Lemma run_op_absent (s : sink) (o : op) (b : writeBroadcaster) (w : world) :
  absent s (writers b) -> o <> OpAdd s ->
  absent s (writers (fst (run_op o (b, w))))
  /\ exists evs,
       trace (snd (run_op o (b, w))) = trace w ++ evs
       /\ Forall (fun ev => Value (ev_elem ev) <> s) evs.
Proof.
  intros Ha Hne. destruct o as [s'|s'|p|]; simpl.
  - split.
    + unfold absent in *. simpl. rewrite map_app, in_app_iff. simpl.
      intros [H|[H|[]]]; auto. apply Hne. congruence.
    + exists []. rewrite app_nil_r. auto.
  - split.
    + unfold RemoveWriter.
      destruct (find_writer s' (elems (writers b))); auto.
      simpl. apply absent_filter, Ha.
    + exists []. rewrite app_nil_r. auto.
  - destruct (Write_spec b p w) as (evs & Ht & Hm & _ & Hn & He).
    destruct (Write b p w) as [[r b'] w']. simpl in *. split.
    + destruct b' as [l']. simpl in *. destruct l' as [es' n']. simpl in *.
      subst es' n'. apply absent_filter, Ha.
    + exists evs. split; auto. eapply pass_skips; eauto.
  - destruct (Close_spec b w) as (evs & Ht & Hm & _). simpl in *.
    split; auto. exists evs. split; auto. eapply pass_skips; eauto.
Qed.

Lemma run_ops_absent (s : sink) (os : list op) (b : writeBroadcaster)
    (w : world) :
  absent s (writers b) -> Forall (fun o => o <> OpAdd s) os ->
  exists evs,
    trace (snd (run_ops os (b, w))) = trace w ++ evs
    /\ Forall (fun ev => Value (ev_elem ev) <> s) evs.
Proof.
  unfold run_ops. revert b w.
  induction os as [|o os IH]; intros b w Ha Hos; cbn [fold_left].
  - exists []. rewrite app_nil_r. auto.
  - inversion Hos as [|? ? Ho Hos']; subst.
    destruct (run_op_absent s o b w Ha Ho) as (Ha' & evs1 & Ht1 & Hf1).
    destruct (run_op o (b, w)) as [b1 w1]. cbn [fst snd] in *.
    destruct (IH b1 w1 Ha' Hos') as (evs2 & Ht2 & Hf2).
    exists (evs1 ++ evs2). rewrite Ht2, Ht1, app_assoc. split; auto.
    apply Forall_app. auto.
Qed.

Lemma write_failed_false (p : bytes) (n : Z) (err : option error) :
  write_failed p n err = false
  <-> err = None /\ n = Z.of_nat (length p).
Proof.
  unfold write_failed. rewrite orb_false_iff, negb_false_iff, Z.eqb_eq.
  destruct err; simpl; intuition congruence.
Qed.

(** With distinct pointers, [e] is still linked after [Write] exactly
    when the write made on [e] in this pass did not fail. *)
Lemma Write_keeps_iff (b : writeBroadcaster) (p : bytes) (w : world)
    (e : Element sink) (n : Z) (err : option error) :
  wf (writers b) ->
  In (EvWrite e p n err) (events_since w (snd (Write b p w))) ->
  In e (elems (writers (snd (fst (Write b p w)))))
  <-> write_failed p n err = false.
Proof.
  intros Hwf Hin. rewrite (Write_survivors b p w Hwf).
  destruct (Write_spec b p w) as (evs & Ht & Hm & _).
  rewrite (events_since_app _ _ _ Ht) in *.
  destruct Hwf as [Hnd _]. rewrite <- Hm, map_map in Hnd.
  rewrite in_map_iff. split.
  - intros (ev & He & Hev). apply filter_In in Hev.
    destruct Hev as [Hev Hok].
    assert (ev = EvWrite e p n err)
      by (eapply (NoDup_map_inj (fun x => eid (ev_elem x))); eauto;
          simpl; congruence).
    subst ev. simpl in Hok. apply negb_true_iff in Hok. exact Hok.
  - intros Hok. exists (EvWrite e p n err). split; auto.
    apply filter_In. split; auto. simpl. rewrite Hok. reflexivity.
Qed.

(** *** The claims about [writeBroadcaster] *)

(** C3. For every [data] and every state of the sink collection (any
    number of failing sinks, the empty collection included), [Write]
    returns [(len(data), nil)] to its caller. *)
Theorem Write_reports_len_nil (b : writeBroadcaster) (p : bytes)
    (w : world) :
  fst (fst (Write b p w)) = (Z.of_nat (length p), None).
Proof.
  unfold Write. destruct (write_pass (elems (writers b)) p [] w).
  reflexivity.
Qed.

(** C4, as amended.  In one [Write] every linked element gets one
    [writer.Write(data)], and the element is unlinked exactly when that
    call returned an error or reported a count different from
    [len(data)]; it stays linked exactly when the call returned [nil]
    and [len(data)].  For a sink that keeps the [io.Writer] contract
    ([n <= len(data)]) that is: an error or fewer bytes than
    [len(data)]. *)
Theorem Write_evicts_iff_failed (b : writeBroadcaster) (p : bytes)
    (w : world) :
  wf (writers b) ->
  let '(_, b', w') := Write b p w in
  trace w' = trace w ++ events_since w w'
  /\ map ev_elem (events_since w w') = elems (writers b)
  /\ Forall (wrote_to p) (events_since w w')
  /\ forall e n err,
       In (EvWrite e p n err) (events_since w w') ->
       (~ In e (elems (writers b'))
        <-> (err <> None \/ n <> Z.of_nat (length p)))
       /\ (In e (elems (writers b'))
           <-> (err = None /\ n = Z.of_nat (length p)))
       /\ ((n <= Z.of_nat (length p))%Z ->
           (~ In e (elems (writers b'))
            <-> (err <> None \/ (n < Z.of_nat (length p))%Z))).
Proof.
  intros Hwf.
  pose proof (Write_keeps_iff b p w) as Hk.
  destruct (Write_spec b p w) as (evs & Ht & Hm & Hp & _).
  rewrite (events_since_app _ _ _ Ht) in Hk.
  destruct (Write b p w) as [[r b'] w']. cbn [fst snd] in *.
  rewrite (events_since_app _ _ _ Ht).
  split; [exact Ht|]. split; [exact Hm|]. split; [exact Hp|].
  intros e n err Hin. specialize (Hk e n err Hwf Hin).
  rewrite write_failed_false in Hk.
  split; [|split].
  - split.
    + intros Hnot. destruct err; [left; discriminate|].
      right. intros ->. apply Hnot, Hk. auto.
    + intros [Hne|Hne] Hin'; apply Hk in Hin'; tauto.
  - exact Hk.
  - intros Hlen. split.
    + intros Hnot. destruct err; [left; discriminate|].
      right. assert (n <> Z.of_nat (length p))
        by (intros ->; apply Hnot, Hk; auto).
      lia.
    + intros [Hne|Hlt] Hin'; apply Hk in Hin'; destruct Hin'; [tauto|lia].
Qed.

(** C5. In a [Write] the whole list is traversed before anything is
    unlinked: every linked sink, also one behind a failing sink, gets
    the full [data]; the list afterwards is the list of the elements
    whose write succeeded, in their order; the next [Write] calls
    exactly those; no later operation of the broadcaster ever calls an
    element that was evicted; and a sink that no element holds any more
    is never called again, unless the owner registers it again. *)
Theorem Write_eviction_isolated (b : writeBroadcaster) (p : bytes)
    (w : world) :
  wf (writers b) ->
  let '(_, b1, w1) := Write b p w in
  (b1, w1)
  = ({| writers :=
          remove_failed (fst (write_pass (elems (writers b)) p [] w))
            (writers b) |},
     snd (write_pass (elems (writers b)) p [] w))
  /\ trace w1 = trace w ++ events_since w w1
  /\ map ev_elem (events_since w w1) = elems (writers b)
  /\ Forall (wrote_to p) (events_since w w1)
  /\ elems (writers b1)
     = map ev_elem
         (filter (fun ev => negb (ev_failed ev)) (events_since w w1))
  /\ (forall p2 w',
        let '(_, _, w2) := Write b1 p2 w' in
        map ev_elem (events_since w' w2) = elems (writers b1)
        /\ Forall (wrote_to p2) (events_since w' w2))
  /\ (forall e,
        In e (elems (writers b)) -> ~ In e (elems (writers b1)) ->
        forall os w',
          Forall (fun ev => ev_elem ev <> e)
            (events_since w' (snd (run_ops os (b1, w')))))
  /\ (forall s,
        absent s (writers b1) ->
        forall os w',
          Forall (fun o => o <> OpAdd s) os ->
          Forall (fun ev => Value (ev_elem ev) <> s)
            (events_since w' (snd (run_ops os (b1, w'))))).
Proof.
  intros Hwf.
  pose proof (Write_survivors b p w Hwf) as Hs.
  pose proof (Write_wf b p w Hwf) as Hwf1.
  destruct (Write_spec b p w) as (evs & Ht & Hm & Hp & Hn & He).
  assert (Hdef : (snd (fst (Write b p w)), snd (Write b p w))
                 = ({| writers :=
                         remove_failed
                           (fst (write_pass (elems (writers b)) p [] w))
                           (writers b) |},
                    snd (write_pass (elems (writers b)) p [] w))).
  { unfold Write. destruct (write_pass (elems (writers b)) p [] w).
    reflexivity. }
  destruct (Write b p w) as [[r b1] w1]. cbn [fst snd] in *.
  rewrite (events_since_app _ _ _ Ht) in *.
  repeat (split; [assumption|]). split.
  - intros p2 w'.
    destruct (Write_spec b1 p2 w') as (evs2 & Ht2 & Hm2 & Hp2 & _).
    destruct (Write b1 p2 w') as [[r2 b2] w2]. cbn [fst snd] in *.
    rewrite (events_since_app _ _ _ Ht2). auto.
  - split; [|intros s Ha os w' Hos;
                destruct (run_ops_absent s os b1 w' Ha Hos)
                  as (evs' & Ht' & Hf');
                rewrite (events_since_app _ _ _ Ht'); exact Hf'].
    intros e Hin Hout os w'.
    assert (Hg : gone e (writers b1)).
    { destruct Hwf as [Hnd Hlt]. rewrite Forall_forall in Hlt. split.
      - rewrite Hn. auto.
      - intros Hi. apply Hout.
        apply in_map_iff in Hi. destruct Hi as (y & Hy & Hi).
        assert (y = e); [|subst; auto].
        apply (NoDup_map_inj eid (elems (writers b))); auto.
        rewrite He in Hi. apply filter_In in Hi. tauto. }
    destruct (run_ops_gone e os b1 w' Hg) as (evs' & Ht' & Hf').
    rewrite (events_since_app _ _ _ Ht').
    eapply Forall_impl; [|exact Hf']. simpl. intros ev Hne Heq.
    apply Hne. rewrite Heq. reflexivity.
Qed.

Lemma registered_values (ss : list sink) (b : writeBroadcaster) :
  map Value (elems (writers (fold_left (fun b s => AddWriter s b) ss b)))
  = map Value (elems (writers b)) ++ ss.
Proof.
  revert b. induction ss as [|s ss IH]; intros b; simpl.
  - rewrite app_nil_r. reflexivity.
  - rewrite IH. simpl. rewrite map_app, <- app_assoc. reflexivity.
Qed.

(** C7. [Close] calls [Close] once on every linked element, in list
    order, makes no other call, and returns [nil] whatever the sinks
    return.  The list order is the order of registration: after
    [AddWriter] for the sinks [ss] the sinks closed are [ss], and for a
    broadcaster reached through any calls of [AddWriter], [RemoveWriter],
    [Write] and [Close] the elements are closed in the order in which
    they were allocated. *)
Theorem Close_closes_each_once (b : writeBroadcaster) (w : world) :
  let '(err, _, w') := Close b w in
  err = None
  /\ trace w' = trace w ++ events_since w w'
  /\ map ev_elem (events_since w w') = elems (writers b)
  /\ Forall (fun ev => exists e r, ev = EvClose e r) (events_since w w')
  /\ (forall ss w0,
        map Value
          (map ev_elem
             (events_since w0 (snd (Close (registered ss) w0))))
        = ss)
  /\ (forall os w0,
        let '(b1, w1) := run_ops os (newWriteBroadcaster, w0) in
        StronglySorted lt
          (map eid (map ev_elem (events_since w1 (snd (Close b1 w1)))))).
Proof.
  destruct (Close_spec b w) as (evs & Ht & Hm & Hc).
  unfold Close in *. cbn [fst snd] in *.
  rewrite (events_since_app _ _ _ Ht).
  repeat (split; [first [reflexivity | assumption]|]).
  split.
  - intros ss w0.
    destruct (close_pass_spec (elems (writers (registered ss))) w0)
      as (evs0 & Ht0 & Hm0 & _).
    rewrite (events_since_app _ _ _ Ht0), Hm0.
    unfold registered. rewrite registered_values. reflexivity.
  - intros os w0.
    pose proof (run_ops_in_order os newWriteBroadcaster w0
                  newWriteBroadcaster_wf (SSorted_nil lt)) as Hs.
    destruct (run_ops os (newWriteBroadcaster, w0)) as [b1 w1].
    cbn [fst snd] in *.
    destruct (close_pass_spec (elems (writers b1)) w1)
      as (evs1 & Ht1 & Hm1 & _).
    rewrite (events_since_app _ _ _ Ht1), Hm1. exact Hs.
Qed.

(** C9. [Close] returns the broadcaster as it was: no element is
    unlinked, and a [Write] that follows calls every sink that was just
    closed. *)
Theorem Close_keeps_sinks_registered (b : writeBroadcaster) (w : world)
    (p : bytes) :
  let '(_, b', w') := Close b w in
  b' = b
  /\ let '(_, _, w2) := Write b' p w' in
     trace w2 = trace w' ++ events_since w' w2
     /\ map ev_elem (events_since w' w2) = map ev_elem (events_since w w')
     /\ map ev_elem (events_since w' w2) = elems (writers b)
     /\ Forall (wrote_to p) (events_since w' w2).
Proof.
  destruct (Close_spec b w) as (evs & Ht & Hm & _).
  unfold Close in *. cbn [fst snd] in *.
  rewrite (events_since_app _ _ _ Ht).
  split; [reflexivity|].
  destruct (Write_spec b p (close_pass (elems (writers b)) w))
    as (evs2 & Ht2 & Hm2 & Hp2 & _).
  destruct (Write b p (close_pass (elems (writers b)) w)) as [[r2 b2] w2].
  cbn [fst snd] in *. rewrite (events_since_app _ _ _ Ht2).
  repeat split; auto. congruence.
Qed.

End Sinks.

Arguments EvWrite {sink} _ _ _ _.
Arguments EvClose {sink} _ _.
Arguments ev_elem {sink} _.
Arguments ev_failed {sink} _.
Arguments wrote_to {sink} _ _.
Arguments sinks {sink World} _.
Arguments trace {sink World} _.
Arguments writers {sink} _.
Arguments AddWriter {sink} _ _.
Arguments RemoveWriter {sink} _ _ _.
Arguments registered {sink} _.
Arguments absent {sink} _ _.
Arguments Write {sink World} _ _ _ _.
Arguments Close {sink World} _ _ _.
Arguments run_ops {sink} _ {World} _ _ _ _.
Arguments events_since {sink World} _ _.
Arguments OpAdd {sink} _.
Arguments OpRemove {sink} _.
Arguments OpWrite {sink} _.
Arguments OpClose {sink}.
End Broadcast.

(** ** The broadcaster on concrete sinks *)
Module BroadcastDemo.
Import GoList Broadcast.

(** Four sinks, named by number: 0 returns an error, 1 accepts
    everything, 2 writes one byte less than asked, 3 reports one byte
    more than it was given.  The state counts the calls. *)
Definition broken_pipe : error := Errors.broken_pipe.

Definition demo_Write (s : nat) (p : bytes) (calls : nat)
  : (Z * option error) * nat :=
  match s with
  | 0 => ((0%Z, Some broken_pipe), S calls)
  | 2 => ((Z.of_nat (length p) - 1)%Z, None, S calls)
  | 3 => ((Z.of_nat (length p) + 1)%Z, None, S calls)
  | _ => (Z.of_nat (length p), None, S calls)
  end.

Definition demo_Close (s : nat) (calls : nat) : option error * nat :=
  match s with
  | 0 => (Some broken_pipe, S calls)
  | _ => (None, S calls)
  end.

Definition w0 : world nat nat := {| sinks := 0; trace := [] |}.

Definition hello : bytes := ["h"; "e"; "l"; "l"; "o"]%byte.
Definition bye : bytes := ["b"; "y"; "e"]%byte.

Definition A : Element nat := {| eid := 0; Value := 0 |}.
Definition B : Element nat := {| eid := 1; Value := 1 |}.

Definition bAB : writeBroadcaster nat := registered [0; 1].

(** C4 as it is worded fails on sink 3: its write returns no error and
    does not report fewer bytes than [len(data)] (it reports 6 for 5),
    and it is evicted all the same, because the code tests
    [n != len(p)]. *)
Definition evicted_iff_error_or_short {sink World : Type}
    (sink_Write : sink -> bytes -> World -> (Z * option error) * World)
    (b : writeBroadcaster sink) (p : bytes) (w : world sink World) : Prop :=
  let '(_, b', w') := Write sink_Write b p w in
  forall e n err,
    In (EvWrite e p n err) (events_since w w') ->
    ~ In e (elems (writers b'))
    <-> (err <> None \/ (n < Z.of_nat (length p))%Z).

Lemma bAB_wf : wf (writers bAB).
Proof.
  exact (AddWriter_wf nat 1 _
           (AddWriter_wf nat 0 _ (newWriteBroadcaster_wf nat))).
Defined.

(** Eviction isolation, on the example of the design document: A fails,
    B is healthy; B receives [hello], A is unlinked, and the next write
    reaches B only. *)
Example eviction_isolation :
  let '(r, b1, w1) := Write demo_Write bAB hello w0 in
  let '(r2, b2, w2) := Write demo_Write b1 bye w1 in
  r = (5%Z, None)
  /\ trace w1 = [EvWrite A hello 0 (Some broken_pipe); EvWrite B hello 5 None]
  /\ elems (writers b1) = [B]
  /\ events_since w1 w2 = [EvWrite B bye 3 None]
  /\ r2 = (3%Z, None).
Proof. vm_compute. repeat split. Qed.

(** Close fans out, and the error of sink 0 is dropped. *)
Example close_fans_out :
  let '(r, b1, w1) := Close demo_Close (registered [0; 1; 2]) w0 in
  r = None
  /\ map (fun ev => Value (ev_elem ev)) (trace w1) = [0; 1; 2]
  /\ b1 = registered [0; 1; 2].
Proof. vm_compute. repeat split. Qed.

(** The same sink registered twice is two elements: it is written to
    twice and closed twice. *)
Example registered_twice :
  let b := registered [1; 1] in
  map (fun ev => Value (ev_elem ev))
    (trace (snd (Write demo_Write b hello w0))) = [1; 1]
  /\ map (fun ev => Value (ev_elem ev))
       (trace (snd (Close demo_Close b w0))) = [1; 1].
Proof. vm_compute. repeat split. Qed.

Lemma Write_evicts_overreporting_sink :
  let e := {| eid := 0; Value := 3 |} in
  let '(_, b', w') := Write demo_Write (registered [3]) hello w0 in
  (events_since w0 w' = [EvWrite e hello 6 None]
   /\ ~ (6 < Z.of_nat (length hello))%Z
   /\ ~ In e (elems (writers b')))
  /\ ~ evicted_iff_error_or_short demo_Write (registered [3]) hello w0.
Proof.
  split.
  - vm_compute. repeat split; intros H; [discriminate H | exact H].
  - unfold evicted_iff_error_or_short. intros H.
    specialize (H {| eid := 0; Value := 3 |} 6%Z None).
    vm_compute in H. destruct (H (or_introl eq_refl)) as [H1 _].
    destruct (H1 (fun x => x)) as [Hne|Hlt]; [apply Hne; reflexivity|].
    discriminate Hlt.
Qed.

Lemma Write_evicts_iff_failed_witness :
  wf (writers bAB)
  /\ ~ In A (elems (writers (snd (fst (Write demo_Write bAB hello w0)))))
  /\ In B (elems (writers (snd (fst (Write demo_Write bAB hello w0))))).
Proof.
  split; [exact bAB_wf|].
  pose proof (Write_evicts_iff_failed _ _ demo_Write bAB hello w0 bAB_wf) as H.
  destruct (Write demo_Write bAB hello w0) as [[r b'] w'] eqn:E.
  vm_compute in E. injection E as _ <- <-.
  destruct H as (_ & _ & _ & H). split.
  - destruct (H A 0%Z (Some broken_pipe) (or_introl eq_refl)) as (H1 & _).
    apply H1. left. discriminate.
  - destruct (H B 5%Z None (or_intror (or_introl eq_refl))) as (_ & H2 & _).
    apply H2. split; reflexivity.
Defined.

Lemma Write_eviction_isolated_witness :
  wf (writers bAB)
  /\ (forall os w',
        Forall (fun ev => ev_elem ev <> A)
          (events_since w'
             (snd (run_ops Nat.eqb demo_Write demo_Close os
                     (snd (fst (Write demo_Write bAB hello w0)), w')))))
  /\ (forall os w',
        Forall (fun o => o <> OpAdd 0) os ->
        Forall (fun ev => Value (ev_elem ev) <> 0)
          (events_since w'
             (snd (run_ops Nat.eqb demo_Write demo_Close os
                     (snd (fst (Write demo_Write bAB hello w0)), w'))))).
Proof.
  split; [exact bAB_wf|].
  pose proof (Write_eviction_isolated _ Nat.eqb _ demo_Write demo_Close
                bAB hello w0 bAB_wf) as H.
  destruct (Write demo_Write bAB hello w0) as [[r b'] w'] eqn:E.
  vm_compute in E. injection E as _ <- <-.
  destruct H as (_ & _ & _ & _ & _ & _ & H & H').
  split.
  - apply (H A).
    + left. reflexivity.
    + simpl. intros [H1|[]]. discriminate H1.
  - apply (H' 0). unfold absent. simpl. intros [H1|[]]. discriminate H1.
Defined.

End BroadcastDemo.

(** ** [Trunc]

    A Go string is a sequence of bytes, and [len] and slicing count
    bytes; [maxlen] is an [int].  A slice expression whose bound is out
    of range panics at run time: [None]. *)
Module Text.

(** [s[:hi]]. *)
Definition slice_to (s : bytes) (hi : Z) : option bytes :=
  if ((hi <? 0) || (Z.of_nat (length s) <? hi))%Z then None
  else Some (firstn (Z.to_nat hi) s).

Definition Trunc (s : bytes) (maxlen : Z) : option bytes :=
  if (Z.of_nat (length s) <=? maxlen)%Z then Some s
  else slice_to s maxlen.

Definition abc : bytes := ["a"; "b"; "c"]%byte.

Lemma Trunc_cases (s : bytes) (maxlen : Z) :
  Trunc s maxlen
  = if (maxlen <? 0)%Z then None
    else Some (firstn (Z.to_nat maxlen) s).
Proof.
  unfold Trunc, slice_to.
  destruct (Z.leb_spec (Z.of_nat (length s)) maxlen) as [Hle|Hgt].
  - destruct (Z.ltb_spec maxlen 0) as [Hneg|Hpos]; [lia|].
    rewrite firstn_all2 by lia. reflexivity.
  - destruct (Z.ltb_spec maxlen 0) as [Hneg|Hpos]; simpl; auto.
    destruct (Z.ltb_spec (Z.of_nat (length s)) maxlen); [lia|].
    reflexivity.
Qed.

(** X1.  [Trunc] panics exactly when [maxlen] is negative, whatever the
    string, the empty one included:  [len(s) <= maxlen] is then false
    and [s[:maxlen]] is out of range. *)
Theorem Trunc_panics_iff_negative (s : bytes) (maxlen : Z) :
  Trunc s maxlen = None <-> (maxlen < 0)%Z.
Proof.
  rewrite Trunc_cases.
  destruct (Z.ltb_spec maxlen 0); split; auto; try discriminate; lia.
Qed.

(** X2.  For [maxlen >= 0], [Trunc] returns the prefix of [s] of
    [min(len(s), maxlen)] bytes:  [s] itself when it fits, its first
    [maxlen] bytes otherwise. *)
Theorem Trunc_longest_prefix (s : bytes) (maxlen : Z) :
  (0 <= maxlen)%Z ->
  exists t rest,
    Trunc s maxlen = Some t
    /\ s = t ++ rest
    /\ Z.of_nat (length t) = Z.min (Z.of_nat (length s)) maxlen
    /\ ((Z.of_nat (length s) <= maxlen)%Z -> t = s).
Proof.
  intros Hpos. rewrite Trunc_cases.
  destruct (Z.ltb_spec maxlen 0); [lia|].
  exists (firstn (Z.to_nat maxlen) s), (skipn (Z.to_nat maxlen) s).
  split; [reflexivity|]. split; [symmetry; apply firstn_skipn|].
  split.
  - rewrite length_firstn. lia.
  - intros Hle. apply firstn_all2. lia.
Qed.

Lemma Trunc_longest_prefix_witness :
  exists t rest,
    Trunc abc 2 = Some t
    /\ abc = t ++ rest
    /\ Z.of_nat (length t) = Z.min (Z.of_nat (length abc)) 2
    /\ ((Z.of_nat (length abc) <= 2)%Z -> t = abc).
Proof. apply (Trunc_longest_prefix abc 2). lia. Defined.

(** X3.  Truncating twice is truncating to the smaller length; in
    particular [Trunc] is idempotent. *)
Theorem Trunc_twice (s t : bytes) (m n : Z) :
  Trunc s m = Some t -> Trunc t n = Trunc s (Z.min m n).
Proof.
  rewrite !Trunc_cases.
  destruct (Z.ltb_spec m 0) as [Hm|Hm]; [discriminate|].
  intros [= <-].
  destruct (Z.ltb_spec n 0) as [Hn|Hn];
    destruct (Z.ltb_spec (Z.min m n) 0) as [Hmn|Hmn]; try lia; auto.
  rewrite firstn_firstn. f_equal. f_equal. lia.
Qed.

Lemma Trunc_twice_witness :
  Trunc abc 2 = Some ["a"; "b"]%byte
  /\ Trunc ["a"; "b"]%byte 1 = Trunc abc (Z.min 2 1).
Proof.
  split; [reflexivity|]. apply (Trunc_twice abc _ 2 1). reflexivity.
Defined.

End Text.

From Stdlib Require DecimalString.

(** ** [HumanDuration]

    The methods of [time.Duration] and the verbs of [fmt] are library
    code.  [int(d.Seconds())], [int(d.Minutes())] and [int(d.Hours())]
    are taken as three functions of the duration; [%d] applied to an
    [int] prints it in decimal; the last [Sprintf] hands a [float64] to
    [%d] and is taken as a function of the duration too. *)
Module Human.
Import Stdlib.Strings.String.
Local Open Scope string_scope.
Local Open Scope Z_scope.

(** [fmt.Sprintf("%d" + rest, n)] for an [int]. *)
Definition Sprintf_d (n : Z) (rest : string) : string :=
  DecimalString.NilZero.string_of_int (Z.to_int n) ++ rest.

Section Durations.
Variable Duration : Type.
Variable Seconds : Duration -> Z.
Variable Minutes : Duration -> Z.
Variable Hours : Duration -> Z.
Variable Sprintf_years : Duration -> string.

Definition HumanDuration (d : Duration) : string :=
  let seconds := Seconds d in
  if seconds <? 1 then "Less than a second"
  else if seconds <? 60 then Sprintf_d seconds " seconds"
  else
    let minutes := Minutes d in
    if minutes =? 1 then "About a minute"
    else if minutes <? 60 then Sprintf_d minutes " minutes"
    else
      let hours := Hours d in
      if hours =? 1 then "About an hour"
      else if hours <? 48 then Sprintf_d hours " hours"
      else if hours <? 24 * 7 * 2
      then Sprintf_d (Z.quot hours 24) " days"
      else if hours <? 24 * 30 * 3
      then Sprintf_d (Z.quot (Z.quot hours 24) 7) " weeks"
      else if hours <? 24 * 365 * 2
      then Sprintf_d (Z.quot (Z.quot hours 24) 30) " months"
      else Sprintf_years d.

(** X18.  What [HumanDuration] can return, whatever the library
    reports.  Days, weeks and months are never counted as one or as
    zero: the number printed is 2 to 13 days, 2 to 12 weeks, 3 to 24
    months.  One minute and one hour are written out, and the number
    printed before [minutes] or [hours] is never 1.  One second is not
    written out: a duration of one whole second gives ["1 seconds"]. *)
Theorem HumanDuration_outputs (d : Duration) :
  (HumanDuration d = "Less than a second"
   \/ (exists n, 1 <= n <= 59
                 /\ HumanDuration d = Sprintf_d n " seconds")
   \/ HumanDuration d = "About a minute"
   \/ (exists n, n < 60 /\ n <> 1
                 /\ HumanDuration d = Sprintf_d n " minutes")
   \/ HumanDuration d = "About an hour"
   \/ (exists n, n < 48 /\ n <> 1
                 /\ HumanDuration d = Sprintf_d n " hours")
   \/ (exists n, 2 <= n <= 13 /\ HumanDuration d = Sprintf_d n " days")
   \/ (exists n, 2 <= n <= 12 /\ HumanDuration d = Sprintf_d n " weeks")
   \/ (exists n, 3 <= n <= 24 /\ HumanDuration d = Sprintf_d n " months")
   \/ HumanDuration d = Sprintf_years d)
  /\ (Seconds d = 1 -> HumanDuration d = "1 seconds").
Proof.
  split.
  - unfold HumanDuration.
    destruct (Z.ltb_spec (Seconds d) 1); [auto|].
    destruct (Z.ltb_spec (Seconds d) 60).
    { right; left. exists (Seconds d). split; [lia | reflexivity]. }
    destruct (Z.eqb_spec (Minutes d) 1); [auto|].
    destruct (Z.ltb_spec (Minutes d) 60).
    { do 3 right; left. exists (Minutes d). auto. }
    destruct (Z.eqb_spec (Hours d) 1); [tauto|].
    destruct (Z.ltb_spec (Hours d) 48).
    { do 5 right; left. exists (Hours d). auto. }
    destruct (Z.ltb_spec (Hours d) (24 * 7 * 2)).
    { do 6 right; left. exists (Z.quot (Hours d) 24).
      split; [|reflexivity]. rewrite Z.quot_div_nonneg by lia.
      split; [apply Z.div_le_lower_bound | apply Z.lt_succ_r,
               Z.div_lt_upper_bound]; lia. }
    destruct (Z.ltb_spec (Hours d) (24 * 30 * 3)).
    { do 7 right; left. exists (Z.quot (Z.quot (Hours d) 24) 7).
      split; [|reflexivity].
      rewrite (Z.quot_div_nonneg (Hours d)) by lia.
      assert (14 <= Hours d / 24 <= 89).
      { split; [apply Z.div_le_lower_bound | apply Z.lt_succ_r,
                 Z.div_lt_upper_bound]; lia. }
      rewrite Z.quot_div_nonneg by lia.
      split; [apply Z.div_le_lower_bound | apply Z.lt_succ_r,
               Z.div_lt_upper_bound]; lia. }
    destruct (Z.ltb_spec (Hours d) (24 * 365 * 2)).
    { do 8 right; left. exists (Z.quot (Z.quot (Hours d) 24) 30).
      split; [|reflexivity].
      rewrite (Z.quot_div_nonneg (Hours d)) by lia.
      assert (90 <= Hours d / 24 <= 729).
      { split; [apply Z.div_le_lower_bound | apply Z.lt_succ_r,
                 Z.div_lt_upper_bound]; lia. }
      rewrite Z.quot_div_nonneg by lia.
      split; [apply Z.div_le_lower_bound | apply Z.lt_succ_r,
               Z.div_lt_upper_bound]; lia. }
    do 9 right. reflexivity.
  - intros H. unfold HumanDuration. rewrite H. reflexivity.
Qed.

End Durations.
End Human.

(** ** [AddWriter], [RemoveWriter] and runs of [Write] *)
Module Registry.
Import GoList Broadcast.

Section Sinks.
Variable sink : Type.
Variable sink_eqb : sink -> sink -> bool.
Variable World : Type.
Variable sink_Write : sink -> bytes -> World -> (Z * option error) * World.
Variable sink_Close : sink -> World -> option error * World.

(** [v == writer] of line 141 decides whether the two interface values
    are the same sink. *)
Hypothesis sink_eqb_eq : forall a b : sink, sink_eqb a b = true <-> a = b.

(** The byte slices passed to the [Write] method of the element [e], in
    the order of the calls. *)
Definition written_to (e : Element sink) (evs : list (event sink))
  : list bytes :=
  flat_map
    (fun ev =>
       match ev with
       | EvWrite x p _ _ => if eid x =? eid e then [p] else []
       | EvClose _ _ => []
       end) evs.

(** Every [Write] on an element of [b] accepts all the bytes and
    returns no error. *)
Definition healthy (b : writeBroadcaster sink) : Prop :=
  forall (e : Element sink) (p : bytes) (st : World),
    In e (elems (writers b)) ->
    fst (sink_Write (Value e) p st) = (Z.of_nat (length p), None).

(** The calls one [Write(p)] makes when no sink fails. *)
Definition fan_out (es : list (Element sink)) (p : bytes)
  : list (event sink) :=
  map (fun e => EvWrite e p (Z.of_nat (length p)) None) es.

(** *** The loop of [RemoveWriter] *)






(** *** One pass over healthy sinks *)

Lemma write_pass_healthy (es failed : list (Element sink)) (p : bytes)
    (w : world sink World) :
  (forall e st, In e es ->
     fst (sink_Write (Value e) p st) = (Z.of_nat (length p), None)) ->
  fst (write_pass sink World sink_Write es p failed w) = failed
  /\ trace (snd (write_pass sink World sink_Write es p failed w))
     = trace w ++ fan_out es p.
Proof.
  revert w. induction es as [|e es IH]; intros w Hh; simpl.
  - rewrite app_nil_r. auto.
  - pose proof (Hh e (sinks w) (or_introl eq_refl)) as He.
    destruct (sink_Write (Value e) p (sinks w)) as [[n err] st].
    simpl in He. injection He as -> ->.
    assert (Hf : write_failed p (Z.of_nat (length p)) None = false).
    { apply write_failed_false. auto. }
    rewrite Hf.
    destruct (IH {| sinks := st;
                    trace := trace w
                             ++ [EvWrite e p (Z.of_nat (length p)) None] |})
      as [H1 H2].
    { intros e' st' Hin. apply Hh. right. exact Hin. }
    split; auto. rewrite H2. simpl. rewrite <- app_assoc. reflexivity.
Qed.

Lemma Write_healthy (b : writeBroadcaster sink) (p : bytes)
    (w : world sink World) :
  healthy b ->
  snd (fst (Write sink_Write b p w)) = b
  /\ trace (snd (Write sink_Write b p w))
     = trace w ++ fan_out (elems (writers b)) p.
Proof.
  intros Hh. unfold Write.
  destruct (write_pass_healthy (elems (writers b)) [] p w) as [H1 H2].
  { intros e st Hin. apply Hh, Hin. }
  destruct (write_pass sink World sink_Write (elems (writers b)) p [] w)
    as [failed w'].
  simpl in *. subst failed. split; auto.
  destruct b as [l]. reflexivity.
Qed.

(** *** What one element is handed *)

Lemma written_to_app (e : Element sink) (l1 l2 : list (event sink)) :
  written_to e (l1 ++ l2) = written_to e l1 ++ written_to e l2.
Proof. unfold written_to. apply flat_map_app. Qed.

Lemma written_to_others (e : Element sink) (evs : list (event sink)) :
  Forall (fun ev => eid (ev_elem ev) <> eid e) evs ->
  written_to e evs = [].
Proof.
  induction 1 as [|ev evs Hne _ IH]; simpl; auto.
  rewrite IH, app_nil_r. destruct ev as [x p n err|x err]; auto.
  simpl in Hne. apply Nat.eqb_neq in Hne. rewrite Hne. reflexivity.
Qed.

(** In one pass over elements with distinct pointers, an element gets
    exactly one call. *)
Lemma written_to_pass (e : Element sink) (p : bytes)
    (evs : list (event sink)) :
  NoDup (map eid (map ev_elem evs)) ->
  In e (map ev_elem evs) ->
  Forall (wrote_to p) evs ->
  written_to e evs = [p].
Proof.
  induction evs as [|ev evs IH]; simpl; intros Hnd Hin Hw; [tauto|].
  inversion Hnd as [|? ? Hnot Hnd']; subst.
  inversion Hw as [|? ? Hp Hw']; subst.
  destruct Hin as [<-|Hin].
  - destruct ev as [x q n err|x err]; simpl in *; [|contradiction].
    subst q. rewrite Nat.eqb_refl. simpl. f_equal.
    apply written_to_others. apply Forall_forall. intros ev' Hev' Heq.
    apply Hnot. rewrite <- Heq. apply in_map, in_map. exact Hev'.
  - rewrite IH by auto.
    destruct ev as [x q n err|x err]; simpl in *; [|contradiction].
    destruct (Nat.eqb_spec (eid x) (eid e)) as [Heq|Hne]; auto.
    exfalso. apply Hnot. rewrite Heq. apply in_map. exact Hin.
Qed.

Lemma run_ops_stays_gone (e : Element sink) (os : list (op sink))
    (b : writeBroadcaster sink) (w : world sink World) :
  gone sink e (writers b) ->
  gone sink e
    (writers (fst (run_ops sink_eqb sink_Write sink_Close os (b, w)))).
Proof.
  revert b w. induction os as [|o os IH]; intros b w Hg; auto.
  change (run_ops sink_eqb sink_Write sink_Close (o :: os) (b, w))
    with (run_ops sink_eqb sink_Write sink_Close os
            (run_op sink sink_eqb World sink_Write sink_Close o (b, w))).
  pose proof (run_op_gone sink sink_eqb World sink_Write sink_Close
                e o b w Hg) as [Hg1 _].
  destruct (run_op sink sink_eqb World sink_Write sink_Close o (b, w))
    as [b1 w1].
  apply IH, Hg1.
Qed.

Lemma run_writes_cons (p : bytes) (ps : list bytes)
    (b : writeBroadcaster sink) (w : world sink World) :
  run_ops sink_eqb sink_Write sink_Close (map OpWrite (p :: ps)) (b, w)
  = run_ops sink_eqb sink_Write sink_Close (map OpWrite ps)
      (snd (fst (Write sink_Write b p w)), snd (Write sink_Write b p w)).
Proof.
  unfold run_ops. simpl.
  destruct (Write sink_Write b p w) as [[r b1] w1]. reflexivity.
Qed.

Lemma run_writes_order (ps : list bytes) (b : writeBroadcaster sink)
    (w : world sink World) (e : Element sink) :
  wf (writers b) -> In e (elems (writers b)) ->
  exists evs k,
    trace (snd (run_ops sink_eqb sink_Write sink_Close
                  (map OpWrite ps) (b, w)))
    = trace w ++ evs
    /\ written_to e evs = firstn k ps
    /\ (In e (elems (writers
                       (fst (run_ops sink_eqb sink_Write sink_Close
                               (map OpWrite ps) (b, w))))) ->
        k = length ps)
    /\ (ps <> [] -> 0 < k).
Proof.
  revert b w. induction ps as [|p ps IH]; intros b w Hwf Hin.
  - exists [], 0. simpl. rewrite app_nil_r. repeat split; auto.
    congruence.
  - rewrite run_writes_cons.
    destruct (Write_spec sink World sink_Write b p w)
      as (evs1 & Ht1 & Hm1 & Hp1 & Hn1 & He1).
    pose proof (Write_wf sink World sink_Write b p w Hwf) as Hwf1.
    set (b1 := snd (fst (Write sink_Write b p w))) in *.
    set (w1 := snd (Write sink_Write b p w)) in *.
    assert (Hone : written_to e evs1 = [p]).
    { apply written_to_pass; auto; rewrite Hm1; auto. apply Hwf. }
    destruct (in_dec Nat.eq_dec (eid e) (map eid (elems (writers b1))))
      as [Hid|Hid].
    + assert (Hin1 : In e (elems (writers b1))).
      { apply in_map_iff in Hid. destruct Hid as (x & Hx & Hxin).
        assert (Hxb : In x (elems (writers b))).
        { rewrite He1 in Hxin. apply filter_In in Hxin. tauto. }
        assert (x = e).
        { eapply NoDup_map_inj; eauto. apply Hwf. }
        subst x. exact Hxin. }
      destruct (IH b1 w1 Hwf1 Hin1) as (evs2 & k & Ht2 & Hk & Hlast & _).
      exists (evs1 ++ evs2), (S k).
      rewrite Ht2, Ht1, <- app_assoc, written_to_app, Hone, Hk.
      simpl. split; [reflexivity|]. split; [reflexivity|]. split.
      * intros Hend. f_equal. apply Hlast, Hend.
      * intros _. lia.
    + assert (Hgone : gone sink e (writers b1)).
      { split.
        - rewrite Hn1. destruct Hwf as [_ Hlt].
          rewrite Forall_forall in Hlt. apply Hlt, Hin.
        - exact Hid. }
      destruct (run_ops_gone sink sink_eqb World sink_Write sink_Close
                  e (map OpWrite ps) b1 w1 Hgone) as (evs2 & Ht2 & Hno).
      exists (evs1 ++ evs2), 1.
      rewrite Ht2, Ht1, <- app_assoc, written_to_app, Hone,
        (written_to_others e evs2 Hno).
      simpl.
      split; [reflexivity|]. split; [reflexivity|]. split.
      * intros Hend. exfalso.
        destruct (run_ops_stays_gone e (map OpWrite ps) b1 w1 Hgone)
          as [_ Hout].
        apply Hout, in_map, Hend.
      * intros _. lia.
Qed.




(** X6.  While every registered sink takes all the bytes and returns no
    error, a run of [Write] calls leaves the broadcaster as it was, and
    the calls made on the sinks are, for each [Write(p)] in turn, one
    [Write(p)] per element in list order. *)
Theorem Write_fans_out_while_healthy (b : writeBroadcaster sink)
    (ps : list bytes) (w : world sink World) :
  healthy b ->
  let '(b', w') :=
    run_ops sink_eqb sink_Write sink_Close (map OpWrite ps) (b, w) in
  b' = b
  /\ events_since w w' = flat_map (fan_out (elems (writers b))) ps.
Proof.
  intros Hh.
  assert (H : fst (run_ops sink_eqb sink_Write sink_Close
                     (map OpWrite ps) (b, w)) = b
              /\ trace (snd (run_ops sink_eqb sink_Write sink_Close
                               (map OpWrite ps) (b, w)))
                 = trace w ++ flat_map (fan_out (elems (writers b))) ps).
  { revert w. induction ps as [|p ps IH]; intros w.
    - simpl. rewrite app_nil_r. auto.
    - rewrite run_writes_cons.
      destruct (Write_healthy b p w Hh) as [Hb Ht]. rewrite Hb.
      destruct (IH (snd (Write sink_Write b p w))) as [H1 H2].
      split; [exact H1|]. rewrite H2, Ht, <- app_assoc. reflexivity. }
  destruct (run_ops sink_eqb sink_Write sink_Close (map OpWrite ps) (b, w))
    as [b' w'].
  simpl in H. destruct H as [H1 H2]. split; [exact H1|].
  apply events_since_app, H2.
Qed.

(** X7.  Whatever the sinks do, an element registered when a run of
    [Write] calls starts is handed the byte slices of the first [k]
    calls, once each and in the order of the calls, and nothing after
    its eviction:  [k] is the number of calls when the element is still
    linked at the end, and at least one when there was a call. *)
Theorem Write_keeps_call_order (b : writeBroadcaster sink)
    (ps : list bytes) (w : world sink World) (e : Element sink) :
  wf (writers b) -> In e (elems (writers b)) ->
  let '(b', w') :=
    run_ops sink_eqb sink_Write sink_Close (map OpWrite ps) (b, w) in
  exists k,
    written_to e (events_since w w') = firstn k ps
    /\ (In e (elems (writers b')) -> k = length ps)
    /\ (ps <> [] -> 0 < k).
Proof.
  intros Hwf Hin.
  destruct (run_writes_order ps b w e Hwf Hin)
    as (evs & k & Ht & Hk & Hlast & Hpos).
  destruct (run_ops sink_eqb sink_Write sink_Close (map OpWrite ps) (b, w))
    as [b' w'].
  simpl in *. exists k.
  rewrite (events_since_app sink World w w' evs Ht). auto.
Qed.

End Sinks.

Arguments written_to {sink} _ _.
Arguments healthy {sink World} _ _.
Arguments fan_out {sink} _ _.
End Registry.

(** ** [NopWriteCloser] under a broadcaster *)
Module NopCloser.
Import GoList Broadcast.

Section Nop.
(** The wrapped [io.Writer] values and the state their [Write] acts
    on. *)
Variable writer : Type.
Variable World : Type.
Variable writer_Write :
  writer -> bytes -> World -> (Z * option error) * World.

(** A [*nopWriteCloser]: the address of the struct, and its embedded
    [io.Writer]. *)
Record nopWriteCloser : Type := mkNop { addr : nat; Writer : writer }.

(** [&nopWriteCloser{w}] allocates: every call returns a new pointer.
    The state is the next free address. *)
Definition NopWriteCloser (w : writer) (heap : nat)
  : nopWriteCloser * nat :=
  ({| addr := heap; Writer := w |}, S heap).

(** [Write] is the promoted method of the embedded writer. *)
Definition nop_Write (n : nopWriteCloser) (p : bytes) (st : World)
  : (Z * option error) * World :=
  writer_Write (Writer n) p st.

Definition nop_Close (n : nopWriteCloser) (st : World)
  : option error * World :=
  (None, st).

(** [==] on two interface values that hold [*nopWriteCloser]. *)
Definition nop_eqb (a b : nopWriteCloser) : bool := addr a =? addr b.

Lemma close_pass_nop (es : list (Element nopWriteCloser))
    (w : world nopWriteCloser World) :
  close_pass nopWriteCloser World nop_Close es w
  = {| sinks := sinks w;
       trace := trace w ++ map (fun e => EvClose e None) es |}.
Proof.
  clear writer_Write.
  revert w. induction es as [|e es IH]; intros w; simpl.
  - rewrite app_nil_r. destruct w; reflexivity.
  - rewrite IH. simpl. rewrite <- app_assoc. reflexivity.
Qed.

(** X8.  [Close] on a broadcaster of wrapped writers returns nil, makes
    one [Close] call per element, each returning nil, and leaves the
    state of the wrapped writers as it was: no wrapped writer is closed
    or touched. *)
Theorem Close_spares_wrapped_writers
    (b : writeBroadcaster nopWriteCloser)
    (w : world nopWriteCloser World) :
  let '(r, b', w') := Close nop_Close b w in
  r = None /\ b' = b
  /\ sinks w' = sinks w
  /\ events_since w w'
     = map (fun e => EvClose e None) (elems (writers b)).
Proof.
  clear writer_Write.
  unfold Close. rewrite close_pass_nop.
  repeat split. apply events_since_app. reflexivity.
Qed.

(** X9.  Wrapping the same writer again gives a sink that [==] tells
    apart from every sink registered before:  [RemoveWriter] on the new
    wrapper removes nothing. *)
Theorem RemoveWriter_misses_new_wrapper
    (b : writeBroadcaster nopWriteCloser) (w : writer) (heap : nat) :
  (forall e, In e (elems (writers b)) -> addr (Value e) < heap) ->
  RemoveWriter nop_eqb (fst (NopWriteCloser w heap)) b = b.
Proof.
  clear writer_Write.
  intros Hold. unfold RemoveWriter.
  assert (H : find_writer nopWriteCloser nop_eqb
                (fst (NopWriteCloser w heap)) (elems (writers b)) = None).
  { induction (elems (writers b)) as [|x es IH]; simpl; auto.
    unfold nop_eqb at 1. simpl.
    pose proof (Hold x (or_introl eq_refl)) as Hx.
    destruct (Nat.eqb_spec (addr (Value x)) heap) as [Heq|Hne]; [lia|].
    apply IH. intros e He. apply Hold. right. exact He. }
  rewrite H. reflexivity.
Qed.

End Nop.

Arguments addr {writer} _.
Arguments Writer {writer} _.
Arguments NopWriteCloser {writer} _ _.
Arguments nop_Write {writer World} _ _ _ _.
Arguments nop_Close {writer World} _ _.
Arguments nop_eqb {writer} _ _.
End NopCloser.

(** ** [bufReader.Close] *)
Module ReaderClose.
Import AsyncReader.

Section Closer.
Variable Src : Type.
Variable src_Read : Src -> nat -> (bytes * option error) * Src.
Variable chunk : nat.
(** [r.reader.(io.ReadCloser)]: the [Close] method of the wrapped
    reader, when it has one. *)
Variable src_Close : option (Src -> option error * Src).

Definition Close (r : bufReader Src) : option error * bufReader Src :=
  match src_Close with
  | None => (None, r)
  | Some close =>
      let '(e, src') := close (reader r) in
      (e, {| buf := buf r; reader := src'; err := err r |})
  end.

(** A call of [Close] among the steps of the two goroutines.  [Close]
    takes no lock and reads no field but [reader]. *)
Inductive move : Type :=
| Go (a : action)
| CallClose.

Definition close_sys (s : sys Src) : sys Src :=
  {| rd := snd (Close (rd s)); mu := mu s; dpc := dpc s; cpc := cpc s;
     src_log := src_log s; read_log := read_log s |}.

Definition exec_move (m : move) (s : sys Src) : sys Src :=
  match m with
  | Go a => exec src_Read chunk a s
  | CallClose => close_sys s
  end.

Definition run_moves (ms : list move) (s : sys Src) : sys Src :=
  fold_left (fun s m => exec_move m s) ms s.

(** Steps [drain] has left, at most, once the reader fails every
    [Read]. *)
Definition last_steps (pc : drain_pc) : nat :=
  match pc with
  | DStore _ None => 9
  | DLock None => 8
  | DSignal None => 7
  | DUnlock None => 6
  | DRead => 5
  | DStore _ (Some _) => 4
  | DLock (Some _) => 3
  | DSignal (Some _) => 2
  | DUnlock (Some _) => 1
  | DDone => 0
  end.

Lemma Close_fields (r : bufReader Src) :
  buf (snd (Close r)) = buf r /\ err (snd (Close r)) = err r.
Proof.
  unfold Close. destruct src_Close as [close|]; auto.
  destruct (close (reader r)); auto.
Qed.

Lemma Inv_close_sys (s : sys Src) : Inv s -> Inv (close_sys s).
Proof.
  intros [Hf He Hs Hl Hm].
  destruct (Close_fields (rd s)) as [Hb Hx].
  unfold close_sys.
  constructor; unfold delivered, accepted, pending in *;
    cbn [rd mu dpc cpc src_log read_log]; rewrite ?Hb, ?Hx; auto.
Qed.



Lemma run_moves_drains (n : nat) (ms : list move) (s : sys Src) :
  run_moves (ms ++ repeat (Go ActDrain) n) s
  = run src_Read chunk (repeat ActDrain n) (run_moves ms s).
Proof.
  unfold run_moves, run. rewrite fold_left_app.
  generalize (fold_left (fun s0 m => exec_move m s0) ms s).
  induction n as [|n IH]; intros t; [reflexivity|].
  cbn [repeat fold_left]. rewrite IH. reflexivity.
Qed.

(** *** A reader that fails once closed *)

Section Closed.
Variable close : Src -> option error * Src.
Variable closed : Src -> bool.
Hypothesis closed_by_Close : forall x, closed (snd (close x)) = true.
Hypothesis closed_Read_fails :
  forall x n,
    closed x = true ->
    is_err (snd (fst (src_Read x n))) = true
    /\ closed (snd (src_Read x n)) = true.

Lemma closed_drain_step (s : sys Src) :
  Inv s -> holds_c (cpc s) = false -> closed (reader (rd s)) = true ->
  dpc s <> DDone ->
  let s' := exec src_Read chunk ActDrain s in
  last_steps (dpc s') < last_steps (dpc s)
  /\ holds_c (cpc s') = false
  /\ closed (reader (rd s')) = true
  /\ read_log s' = read_log s
  /\ buf (rd s') ++ pending s' = buf (rd s) ++ pending s.
Proof using closed_Read_fails.
  intros [_ _ _ _ [Hm _]] Hc Hcl Hd. cbv zeta.
  destruct s as [[b src x] m d c sl rl].
  cbn [rd mu dpc cpc src_log read_log reader buf err] in *.
  unfold exec, step, step_drain, pending.
  cbn [rd mu dpc cpc src_log read_log reader buf err].
  destruct d as [|data e|e|e|e|]; try congruence.
  - destruct (closed_Read_fails src chunk Hcl) as [He Hcl'].
    destruct (src_Read src chunk) as [[data e] src'].
    cbn [fst snd] in He, Hcl'.
    cbn [rd mu dpc cpc src_log read_log reader buf err].
    destruct e as [e|]; [|discriminate].
    cbn. rewrite ?app_nil_r. repeat split; auto; lia.
  - destruct e as [e|]; cbn; rewrite ?app_nil_r; repeat split; auto; lia.
  - cbn [holds_d] in Hm. rewrite Hc in Hm. subst m.
    destruct e; cbn; rewrite ?app_nil_r; repeat split; auto; lia.
  - destruct e; destruct c; cbn in *; rewrite ?app_nil_r;
      repeat split; auto; try lia; congruence.
  - destruct e; cbn; rewrite ?app_nil_r; repeat split; auto; lia.
Qed.

Lemma closed_drain_ends (n : nat) (s : sys Src) :
  Inv s -> holds_c (cpc s) = false -> closed (reader (rd s)) = true ->
  last_steps (dpc s) <= n ->
  let s' := run src_Read chunk (repeat ActDrain n) s in
  dpc s' = DDone
  /\ read_log s' = read_log s
  /\ buf (rd s') = buf (rd s) ++ pending s.
Proof using closed_Read_fails.
  revert s. induction n as [|n IH]; intros s Hi Hc Hcl Hn; cbv zeta.
  - simpl. destruct s as [r m d c sl rl]. unfold pending. simpl in *.
    destruct d as [|data e|e|e|e|]; try destruct e; simpl in Hn; try lia.
    rewrite app_nil_r. auto.
  - change (run src_Read chunk (repeat ActDrain (S n)) s)
      with (run src_Read chunk (repeat ActDrain n)
              (exec src_Read chunk ActDrain s)).
    assert (Hcase : dpc s = DDone \/ dpc s <> DDone).
    { destruct (dpc s); auto; right; discriminate. }
    destruct Hcase as [Hd|Hd].
    + assert (E : exec src_Read chunk ActDrain s = s).
      { destruct s as [r m d c sl rl]. simpl in Hd. subst d. reflexivity. }
      rewrite E. apply IH; auto. rewrite Hd. simpl. lia.
    + destruct (closed_drain_step s Hi Hc Hcl Hd)
        as (Hlt & Hc' & Hcl' & Hl' & Hb').
      destruct (IH (exec src_Read chunk ActDrain s)) as (H1 & H2 & H3);
        [apply Inv_exec, Hi | exact Hc' | exact Hcl' | lia |].
      rewrite H1, H2, H3, Hl', Hb'. auto.
Qed.

End Closed.


End Closer.

Arguments Close {Src} _ _.
Arguments run_moves {Src} _ _ _ _ _.

(** X11.  When the wrapped reader fails every [Read] once it is closed:
    after [Close], nine steps of [drain] at most bring it to its end,
    from wherever it was, provided the goroutine in [Read] does not hold
    the mutex.  No call of [Read] is completed by these steps, and the
    buffer gains the bytes that were about to be appended and no other. *)
Theorem Close_ends_drain (Src : Type)
    (src_Read : Src -> nat -> (bytes * option error) * Src)
    (chunk : nat) (close : Src -> option error * Src)
    (closed : Src -> bool) (s : sys Src) :
  (forall x, closed (snd (close x)) = true) ->
  (forall x n,
      closed x = true ->
      is_err (snd (fst (src_Read x n))) = true
      /\ closed (snd (src_Read x n)) = true) ->
  Inv s -> holds_c (cpc s) = false ->
  let s' := run_moves src_Read chunk (Some close)
              ([CallClose] ++ repeat (Go ActDrain) 9) s in
  dpc s' = DDone
  /\ err (rd s') <> None
  /\ read_log s' = read_log s
  /\ buf (rd s') = buf (rd s) ++ pending s.
Proof.
  intros Hclose Hfail Hi Hc. cbv zeta.
  rewrite (run_moves_drains Src src_Read chunk (Some close) 9 [CallClose] s).
  cbn [run_moves fold_left exec_move].
  pose proof (Inv_close_sys Src (Some close) s Hi) as Hi1.
  destruct (Close_fields Src (Some close) (rd s)) as [Hb _].
  destruct (closed_drain_ends Src src_Read chunk closed Hfail 9
              (close_sys Src (Some close) s) Hi1)
    as (Hd & Hl & Hb').
  - exact Hc.
  - unfold close_sys, Close. cbn [rd reader snd].
    pose proof (Hclose (reader (rd s))) as H.
    destruct (close (reader (rd s))). exact H.
  - unfold close_sys. cbn [dpc].
    destruct (dpc s) as [|data e|e|e|e|]; try destruct e;
      cbn [last_steps]; lia.
  - split; [exact Hd|]. split; [|split].
    + pose proof (inv_err _ _ (Inv_run Src src_Read chunk
                               (repeat ActDrain 9) _ Hi1)) as He.
      rewrite Hd in He. exact He.
    + exact Hl.
    + rewrite Hb'. unfold pending, close_sys. cbn [rd dpc].
      rewrite Hb. reflexivity.
Qed.

End ReaderClose.

(** ** [Signal] and [Wait] *)
Module Wakeups.
Import AsyncReader StreamReader.

(** The goroutine in [Read] is neither suspended in [Wait] nor holding
    the mutex. *)
Definition standing (c : cons_pc) : bool :=
  match c with
  | CIdle | CBufRead _ | CCheckErr _ | CLock _ | CWoken _ => true
  | CWait _ | CParked _ | CUnlock _ => false
  end.

(** A call of [Read] that has found the buffer empty and no error
    recorded, then [drain] from its start to its end, then the call
    going on to [Lock] and [Wait], then any moves. *)
Definition overtaken_at_Lock (n plen : nat) (sched : list action)
  : list action :=
  [ActCall plen; ActCons; ActCons]
    ++ repeat ActDrain (5 * (n + 2)) ++ [ActCons; ActCons] ++ sched.

(** A call of [Read] that has found the buffer empty, then [drain] from
    its start to its end, then the call looking at [r.err]. *)
Definition overtaken_at_err (n plen : nat) : list action :=
  [ActCall plen; ActCons]
    ++ repeat ActDrain (5 * (n + 2)) ++ [ActCons].

Section Reader.
Variable Src : Type.
Variable src_Read : Src -> nat -> (bytes * option error) * Src.
Variable chunk : nat.

(** One turn of the loop of [drain] with the caller suspended in
    [Wait]: [Signal] wakes it. *)
Lemma drain_round_wakes (s : sys Src) (plen : nat) :
  dpc s = DRead -> mu s = None -> cpc s = CParked plen ->
  let s' := run src_Read chunk (repeat ActDrain 5) s in
  rd s' = fst (drain_iter src_Read chunk (rd s))
  /\ dpc s' = (if snd (drain_iter src_Read chunk (rd s))
               then DRead else DDone)
  /\ mu s' = None /\ cpc s' = CWoken plen /\ read_log s' = read_log s.
Proof.
  intros Hd Hm Hc. destruct s as [[b src x] m d c sl rl].
  cbn [dpc mu cpc] in Hd, Hm, Hc. subst d m c.
  unfold drain_iter. cbn [rd reader buf err read_log cpc].
  destruct (src_Read src chunk) as [[data e] src'] eqn:E.
  assert (E1 : exec src_Read chunk ActDrain
                 {| rd := {| buf := b; reader := src; err := x |};
                    mu := None; dpc := DRead; cpc := CParked plen;
                    src_log := sl; read_log := rl |}
               = {| rd := {| buf := b; reader := src'; err := x |};
                    mu := None; dpc := DStore data e; cpc := CParked plen;
                    src_log := sl ++ [(data, e)]; read_log := rl |}).
  { unfold exec, step, step_drain. cbn [dpc rd reader]. rewrite E.
    reflexivity. }
  unfold run. cbn [repeat fold_left]. rewrite E1.
  unfold exec at 4. cbn [step step_drain dpc rd mu cpc src_log read_log].
  unfold exec at 3. cbn [step step_drain dpc rd mu cpc src_log read_log].
  unfold exec at 2. cbn [step step_drain dpc rd mu cpc src_log read_log].
  unfold exec at 1. cbn [step step_drain dpc rd mu cpc src_log read_log].
  cbn [fst snd].
  destruct e; repeat split; reflexivity.
Qed.

(** A caller that was signalled, running alone with the mutex free:
    it locks again, unlocks, and goes through the body of the loop of
    [Read] once more. *)
Lemma woken_is_Read (s : sys Src) (plen : nat) :
  cpc s = CWoken plen -> mu s = None ->
  let s' := run src_Read chunk (repeat ActCons 4) s in
  rd s' = snd (Read plen (rd s))
  /\ dpc s' = dpc s /\ mu s' = None /\ src_log s' = src_log s
  /\ match fst (Read plen (rd s)) with
     | Returned d e =>
         cpc s' = CIdle /\ read_log s' = read_log s ++ [(plen, d, e)]
     | Waits => cpc s' = CLock plen /\ read_log s' = read_log s
     end.
Proof.
  intros Hc Hm. destruct s as [[b src x] m d c sl rl].
  cbn [cpc mu] in Hc, Hm. subst c m.
  unfold run. cbn [repeat fold_left].
  change (exec src_Read chunk ActCons
            {| rd := {| buf := b; reader := src; err := x |};
               mu := None; dpc := d; cpc := CWoken plen;
               src_log := sl; read_log := rl |})
    with {| rd := {| buf := b; reader := src; err := x |};
            mu := Some TCons; dpc := d; cpc := CUnlock plen;
            src_log := sl; read_log := rl |}.
  change (exec src_Read chunk ActCons
            {| rd := {| buf := b; reader := src; err := x |};
               mu := Some TCons; dpc := d; cpc := CUnlock plen;
               src_log := sl; read_log := rl |})
    with {| rd := {| buf := b; reader := src; err := x |};
            mu := None; dpc := d; cpc := CBufRead plen;
            src_log := sl; read_log := rl |}.
  unfold Read. cbn [rd buf reader err dpc src_log read_log].
  destruct (Buffer.Read plen b) as [[data e] b'] eqn:EB.
  assert (E3 : exec src_Read chunk ActCons
                 {| rd := {| buf := b; reader := src; err := x |};
                    mu := None; dpc := d; cpc := CBufRead plen;
                    src_log := sl; read_log := rl |}
               = if 0 <? length data
                 then {| rd := {| buf := b'; reader := src; err := x |};
                         mu := None; dpc := d; cpc := CIdle;
                         src_log := sl;
                         read_log := rl ++ [(plen, data, e)] |}
                 else {| rd := {| buf := b'; reader := src; err := x |};
                         mu := None; dpc := d; cpc := CCheckErr plen;
                         src_log := sl; read_log := rl |}).
  { unfold exec, step, step_cons.
    cbn [cpc rd buf reader err mu dpc src_log read_log].
    rewrite EB. destruct (0 <? length data); reflexivity. }
  rewrite E3. destruct (0 <? length data).
  - repeat split; reflexivity.
  - destruct x; repeat split; reflexivity.
Qed.

(** With [drain] at its end and the caller suspended in [Wait], no move
    is enabled. *)
Lemma parked_for_good (sched : list action) (s : sys Src) (plen : nat) :
  dpc s = DDone -> cpc s = CParked plen ->
  run src_Read chunk sched s = s.
Proof.
  intros Hd Hc. induction sched as [|a sched IH]; [reflexivity|].
  assert (E : exec src_Read chunk a s = s).
  { destruct s as [r m d c sl rl]. simpl in Hd, Hc. subst d c.
    destruct a; reflexivity. }
  unfold run in *. simpl. rewrite E. exact IH.
Qed.

End Reader.

Section Stream.
Variable bs : bytes.
Variable chunk : nat.
Hypothesis chunk_pos : 0 < chunk.

Local Notation "'srun'" := (run stream_Read chunk).
Local Notation "'sexec'" := (exec stream_Read chunk).

Lemma standing_drain_step (s : sys bytes) :
  Inv s -> standing (cpc s) = true -> dpc s <> DDone ->
  fuel_left (sexec ActDrain s) < fuel_left s
  /\ cpc (sexec ActDrain s) = cpc s
  /\ read_log (sexec ActDrain s) = read_log s.
Proof using chunk_pos.
  intros [_ _ _ _ [Hm _]] Hc Hd.
  destruct s as [[b rem x] m d c sl rl]. simpl in *.
  unfold fuel_left, rounds, exec, step, step_drain. simpl.
  destruct d as [|data e|e|e|e|]; simpl in *; try congruence.
  - destruct rem as [|y rem]; simpl; [repeat split; lia|].
    repeat split; auto.
    pose proof (length_skipn chunk (y :: rem)) as Hlen.
    destruct chunk as [|c']; [lia|]. simpl in *. lia.
  - destruct e; simpl; repeat split; auto; lia.
  - assert (Hh : holds_c c = false) by (destruct c; auto; discriminate).
    rewrite Hh in Hm. subst m. simpl. repeat split; auto.
  - destruct c; simpl in *; repeat split; auto; discriminate.
  - destruct e; simpl; repeat split; auto; lia.
Qed.

Lemma standing_drain_completes (n : nat) (s : sys bytes) :
  Inv s -> standing (cpc s) = true -> fuel_left s <= n ->
  dpc (srun (repeat ActDrain n) s) = DDone
  /\ cpc (srun (repeat ActDrain n) s) = cpc s
  /\ read_log (srun (repeat ActDrain n) s) = read_log s.
Proof using chunk_pos.
  revert s. induction n as [|n IH]; intros s Hi Hc Hn.
  - simpl. repeat split; auto.
    destruct s as [r m d c sl rl]. unfold fuel_left, rounds in Hn.
    simpl in *. destruct d; auto; lia.
  - change (srun (repeat ActDrain (S n)) s)
      with (srun (repeat ActDrain n) (sexec ActDrain s)).
    assert (Hcase : dpc s = DDone \/ dpc s <> DDone).
    { destruct (dpc s); auto; right; discriminate. }
    destruct Hcase as [Hd|Hd].
    + assert (E : sexec ActDrain s = s).
      { destruct s as [r m d c sl rl]. simpl in Hd. subst d. reflexivity. }
      rewrite E. apply IH; auto.
      unfold fuel_left. rewrite Hd. lia.
    + destruct (standing_drain_step s Hi Hc Hd) as (Hlt & Hc' & Hl').
      destruct (IH (sexec ActDrain s)) as (H1 & H2 & H3);
        [apply Inv_exec, Hi | rewrite Hc'; exact Hc | lia |].
      rewrite H1, H2, H3. auto.
Qed.

(** [drain] run to its end past a caller that stands at [c], from the
    start: the whole stream is buffered, [io.EOF] is recorded, and the
    caller has not moved. *)
Lemma drained_past_caller (pre : list action) (c : cons_pc) :
  cpc (srun pre (newBufReader bs)) = c ->
  read_log (srun pre (newBufReader bs)) = [] ->
  standing c = true ->
  let s := srun (pre ++ repeat ActDrain (5 * (length bs + 2)))
             (newBufReader bs) in
  dpc s = DDone /\ cpc s = c /\ read_log s = []
  /\ buf (rd s) = bs /\ err (rd s) = Some io_EOF /\ mu s = None.
Proof using chunk_pos.
  intros Hc Hl Hst. cbv zeta. rewrite run_app.
  set (s0 := srun pre (newBufReader bs)) in *.
  assert (Hi0 : Inv s0) by apply reachable_Inv.
  assert (Hs0 : SInv bs s0) by apply SInv_run, SInv_init.
  destruct (standing_drain_completes (5 * (length bs + 2)) s0 Hi0)
    as (Hd & Hc1 & Hl1).
  { rewrite Hc. exact Hst. }
  { apply fuel_left_bound, Hs0. }
  set (sA := srun (repeat ActDrain (5 * (length bs + 2))) s0) in *.
  assert (HiA : Inv sA) by (apply Inv_run, Hi0).
  assert (HsA : SInv bs sA) by (apply SInv_run, Hs0).
  destruct HsA as (Hacc & Hprod & Heof & Hend).
  rewrite Hd in Hend. rewrite (Hend eq_refl), app_nil_r in Hacc.
  destruct HiA as [Hf He Hsrc _ [Hmu _]].
  unfold pending, delivered in Hf.
  rewrite Hd, Hl1, Hl, app_nil_r, Hacc in Hf. simpl in Hf.
  rewrite Hd in He, Hsrc.
  rewrite Hd, Hc1, Hc in Hmu. simpl in Hmu.
  assert (Hh : holds_c c = false) by (destruct c; auto; discriminate).
  rewrite Hh in Hmu.
  repeat split; auto; try congruence.
  destruct (err (rd sA)) as [e|] eqn:Herr; [|congruence].
  f_equal.
  destruct Hsrc as (l & d0 & Hlog & _).
  rewrite Hlog in Heof. apply Forall_app in Heof.
  destruct Heof as [_ Hlast]. apply Forall_inv in Hlast.
  destruct Hlast as [Hx|Hx]; simpl in Hx; congruence.
Qed.

End Stream.

(** X15.  A caller suspended in [Wait] while [drain] is about to read:
    one turn of the loop of [drain] and then the caller running alone do
    what [drain_iter] followed by the body of [Read] do.  [Signal] wakes
    the caller, which returns what [Read] finds in the reader as
    [drain_iter] left it, or goes to [Lock] again when that is nothing. *)
Theorem Signal_wakes_parked_Read (Src : Type)
    (src_Read : Src -> nat -> (bytes * option error) * Src)
    (chunk : nat) (s : sys Src) (plen : nat) :
  dpc s = DRead -> mu s = None -> cpc s = CParked plen ->
  let r1 := fst (drain_iter src_Read chunk (rd s)) in
  let s' := run src_Read chunk
              (repeat ActDrain 5 ++ repeat ActCons 4) s in
  rd s' = snd (Read plen r1)
  /\ dpc s' = (if snd (drain_iter src_Read chunk (rd s))
               then DRead else DDone)
  /\ match fst (Read plen r1) with
     | Returned d e =>
         cpc s' = CIdle /\ read_log s' = read_log s ++ [(plen, d, e)]
     | Waits => cpc s' = CLock plen /\ read_log s' = read_log s
     end.
Proof.
  intros Hd Hm Hc. cbv zeta. rewrite run_app.
  destruct (drain_round_wakes Src src_Read chunk s plen Hd Hm Hc)
    as (Hr & Hd1 & Hm1 & Hc1 & Hl1).
  destruct (woken_is_Read Src src_Read chunk
              (run src_Read chunk (repeat ActDrain 5) s) plen Hc1 Hm1)
    as (Hr2 & Hd2 & _ & _ & Hres).
  rewrite Hr in Hr2, Hres. rewrite Hl1 in Hres.
  split; [exact Hr2|]. split; [congruence|]. exact Hres.
Qed.

(** X16.  Over a finite stream, whatever its bytes and the buffer length
    of [drain]: a call of [Read] that has found the buffer empty and no
    error, and is overtaken by [drain] running to its end before it
    reaches [Lock], waits for a [Signal] that was already sent.  It is
    suspended in [Wait] for good, whatever moves follow, with the whole
    stream buffered and [io.EOF] recorded; no call of [Read] ever
    returns. *)
Theorem Read_overtaken_waits_for_good (bs : bytes) (chunk plen : nat)
    (sched : list action) :
  0 < chunk ->
  let s := run stream_Read chunk
             (overtaken_at_Lock (length bs) plen sched)
             (newBufReader bs) in
  cpc s = CParked plen /\ dpc s = DDone
  /\ buf (rd s) = bs /\ err (rd s) = Some io_EOF /\ read_log s = [].
Proof.
  intros Hpos. cbv zeta. unfold overtaken_at_Lock.
  rewrite app_assoc, run_app, run_app.
  assert (Hpre : run stream_Read chunk [ActCall plen; ActCons; ActCons]
                   (newBufReader bs)
                 = {| rd := {| buf := []; reader := bs; err := None |};
                      mu := None; dpc := DRead; cpc := CLock plen;
                      src_log := []; read_log := [] |}).
  { destruct plen; reflexivity. }
  destruct (drained_past_caller bs chunk Hpos
              [ActCall plen; ActCons; ActCons] (CLock plen))
    as (Hd & Hc & Hl & Hb & He & Hm);
    try solve [rewrite Hpre; reflexivity | reflexivity].
  remember (run stream_Read chunk
              ([ActCall plen; ActCons; ActCons]
                 ++ repeat ActDrain (5 * (length bs + 2)))
              (newBufReader bs)) as sA eqn:EsA.
  clear EsA.
  assert (Hpark : run stream_Read chunk [ActCons; ActCons] sA
                  = {| rd := rd sA; mu := None; dpc := DDone;
                       cpc := CParked plen;
                       src_log := src_log sA; read_log := [] |}).
  { destruct sA as [r m d c sl rl]. simpl in Hd, Hc, Hl, Hm.
    subst d c rl m. reflexivity. }
  rewrite Hpark.
  rewrite (parked_for_good bytes stream_Read chunk sched _ plen)
    by reflexivity.
  simpl. auto.
Qed.

(** X17.  Over a finite stream, whatever its bytes and the buffer length
    of [drain]: a call of [Read] that has found the buffer empty, and is
    overtaken by [drain] running to its end before it looks at [r.err],
    returns [(0, io.EOF)] while the whole stream is in the buffer. *)
Theorem Read_overtaken_returns_EOF_first (bs : bytes) (chunk plen : nat) :
  0 < chunk ->
  let s := run stream_Read chunk (overtaken_at_err (length bs) plen)
             (newBufReader bs) in
  cpc s = CIdle /\ read_log s = [(plen, [], Some io_EOF)]
  /\ buf (rd s) = bs /\ dpc s = DDone.
Proof.
  intros Hpos. cbv zeta. unfold overtaken_at_err.
  rewrite app_assoc, run_app.
  assert (Hpre : run stream_Read chunk [ActCall plen; ActCons]
                   (newBufReader bs)
                 = {| rd := {| buf := []; reader := bs; err := None |};
                      mu := None; dpc := DRead; cpc := CCheckErr plen;
                      src_log := []; read_log := [] |}).
  { destruct plen; reflexivity. }
  destruct (drained_past_caller bs chunk Hpos
              [ActCall plen; ActCons] (CCheckErr plen))
    as (Hd & Hc & Hl & Hb & He & Hm);
    try solve [rewrite Hpre; reflexivity | reflexivity].
  remember (run stream_Read chunk
              ([ActCall plen; ActCons]
                 ++ repeat ActDrain (5 * (length bs + 2)))
              (newBufReader bs)) as sA eqn:EsA.
  clear EsA.
  destruct sA as [[b src x] m d c sl rl]. simpl in Hd, Hc, Hl, Hb, He, Hm.
  subst d c rl m b x. simpl. auto.
Qed.

End Wakeups.

(** ** [drain] alone, and what [Read] returns *)
Module ReaderFacts.
Import AsyncReader StreamReader.

Section Reader.
Variable Src : Type.
Variable src_Read : Src -> nat -> (bytes * option error) * Src.
Variable chunk : nat.

(** The reader never returns an error. *)
Definition endless : Prop :=
  forall (x : Src) (n : nat), snd (fst (src_Read x n)) = None.

(** X12.  The loop of [drain] has one way out, line 101, taken when the
    reader returned an error: when [drain] ends, that error is recorded;
    and over a reader that never returns an error [drain] does not end,
    however long it runs. *)
Theorem drain_ends_only_on_error :
  (forall (fuel : nat) (r r' : bufReader Src),
      drain src_Read chunk fuel r = Some r' ->
      exists (e : error) (l : list bytes),
        err r' = Some e /\ buf r' = buf r ++ concat l)
  /\ (endless ->
      forall (fuel : nat) (r : bufReader Src),
        drain src_Read chunk fuel r = None).
Proof.
  split.
  - induction fuel as [|fuel IH]; intros r r' H; [discriminate|].
    simpl in H. unfold drain_iter in H.
    destruct (src_Read (reader r) chunk) as [[data e] src'].
    destruct e as [e|]; simpl in H.
    + injection H as <-. exists e, []. simpl.
      rewrite app_nil_r. auto.
    + destruct (IH _ _ H) as (e & l & He & Hb).
      exists e, (data :: l). split; [exact He|].
      rewrite Hb. simpl. unfold Buffer.Write.
      rewrite <- app_assoc. reflexivity.
  - intros Hend. induction fuel as [|fuel IH]; intros r; [reflexivity|].
    simpl. unfold drain_iter.
    pose proof (Hend (reader r) chunk) as He.
    destruct (src_Read (reader r) chunk) as [[data e] src'].
    simpl in He. subst e. simpl. apply IH.
Qed.

(** X14.  Whatever the reader and the schedule, a call of [Read] that
    has returned gave either at least one byte, at most [len(p)], and no
    error, or no byte and the error [drain] recorded: never bytes with
    an error, and never [(0, nil)]. *)
Theorem Read_returns_bytes_or_error (src0 : Src) (sched : list action)
    (plen : nat) (d : bytes) (x : option error) :
  let s := run src_Read chunk sched (newBufReader src0) in
  In (plen, d, x) (read_log s) ->
  (x = None /\ d <> [] /\ length d <= plen)
  \/ (d = [] /\ x <> None /\ x = err (rd s)).
Proof.
  cbv zeta. intros Hin.
  pose proof (inv_log _ _ (reachable_Inv Src src_Read chunk src0 sched))
    as Hl.
  rewrite Forall_forall in Hl. specialize (Hl _ Hin).
  unfold entry_ok in Hl. tauto.
Qed.

End Reader.

Arguments endless {Src} _.

(** X13.  Over a finite stream and with a buffer of positive length,
    [drain] running alone ends within one turn of its loop per byte and
    one more: all the bytes of the stream are appended to the buffer, in
    order, and [io.EOF] is recorded. *)
Theorem drain_appends_whole_stream (bs b : bytes) (x : option error)
    (chunk n : nat) :
  0 < chunk -> length bs <= n ->
  drain stream_Read chunk (S n) {| buf := b; reader := bs; err := x |}
  = Some {| buf := b ++ bs; reader := []; err := Some io_EOF |}.
Proof.
  intros Hpos Hn.
  apply (drain_stream chunk Hpos n {| buf := b; reader := bs; err := x |}).
  exact Hn.
Qed.

End ReaderFacts.

(** ** The added facts on concrete sinks and readers *)
Module RegistryDemo.
Import GoList Broadcast Registry NopCloser BroadcastDemo.



(** Two sinks that accept everything. *)
Definition b14 : writeBroadcaster nat := registered [1; 4].

(** A writer wrapped and registered, with the next free address. *)
Definition wrapped : writeBroadcaster (nopWriteCloser nat) :=
  AddWriter (fst (NopWriteCloser 7 0)) (newWriteBroadcaster _).


Lemma b14_healthy : healthy demo_Write b14.
Proof.
  intros e p st [<-|[<-|[]]]; reflexivity.
Defined.



Lemma Write_fans_out_while_healthy_witness :
  let '(b', w') :=
    run_ops Nat.eqb demo_Write demo_Close (map OpWrite [hello; bye])
      (b14, w0) in
  b' = b14
  /\ events_since w0 w'
     = flat_map (fan_out (elems (writers b14))) [hello; bye].
Proof.
  apply (Write_fans_out_while_healthy nat Nat.eqb nat demo_Write demo_Close
           b14 [hello; bye] w0 b14_healthy).
Defined.

Lemma Write_keeps_call_order_witness :
  let '(b', w') :=
    run_ops Nat.eqb demo_Write demo_Close (map OpWrite [hello; bye])
      (bAB, w0) in
  exists k,
    written_to B (events_since w0 w') = firstn k [hello; bye]
    /\ (In B (elems (writers b')) -> k = 2)
    /\ ([hello; bye] <> [] -> 0 < k).
Proof.
  apply (Write_keeps_call_order nat Nat.eqb nat demo_Write demo_Close
           bAB [hello; bye] w0 B bAB_wf).
  simpl. auto.
Defined.

Lemma RemoveWriter_misses_new_wrapper_witness :
  RemoveWriter nop_eqb (fst (NopWriteCloser 7 1)) wrapped = wrapped.
Proof.
  apply (RemoveWriter_misses_new_wrapper nat wrapped 7 1).
  intros e [<-|[]]. simpl. lia.
Defined.

End RegistryDemo.

(** The error of [os.File] methods on a closed file. *)
Module OsErrors.
Import Stdlib.Strings.String.
Definition ErrClosed : error := errorString "file already closed"%string.
End OsErrors.

Module ReaderDemo.
Import AsyncReader StreamReader ReaderRuns ReaderClose Wakeups ReaderFacts.

(** A file that can be closed: its bytes, and whether it was closed.
    Once closed, [Read] and [Close] fail. *)
Definition ErrClosed : error := OsErrors.ErrClosed.

Definition file_Read (f : bytes * bool) (n : nat)
  : (bytes * option error) * (bytes * bool) :=
  if snd f then (([], Some ErrClosed), f)
  else let '(r, rest) := stream_Read (fst f) n in (r, (rest, false)).

Definition file_Close (f : bytes * bool) : option error * (bytes * bool) :=
  if snd f then (Some ErrClosed, f) else (None, (fst f, true)).

(** A caller suspended in [Wait] before [drain] has read anything. *)
Definition parked : sys bytes :=
  {| rd := {| buf := []; reader := hello; err := None |};
     mu := None; dpc := DRead; cpc := CParked 3;
     src_log := []; read_log := [] |}.

Lemma Close_ends_drain_witness :
  let s' := run_moves file_Read 1024 (Some file_Close)
              ([CallClose] ++ repeat (Go ActDrain) 9)
              (newBufReader (hello, false)) in
  dpc s' = DDone
  /\ err (rd s') <> None
  /\ read_log s' = read_log (newBufReader (hello, false))
  /\ buf (rd s')
     = buf (rd (newBufReader (hello, false)))
         ++ pending (newBufReader (hello, false)).
Proof.
  apply (Close_ends_drain (bytes * bool) file_Read 1024 file_Close snd
           (newBufReader (hello, false))).
  - intros [d []]; reflexivity.
  - intros [d []] n H; [split; reflexivity | discriminate H].
  - apply Inv_init.
  - reflexivity.
Defined.

Lemma Signal_wakes_parked_Read_witness :
  let r1 := fst (drain_iter stream_Read 1024 (rd parked)) in
  let s' := run stream_Read 1024
              (repeat ActDrain 5 ++ repeat ActCons 4) parked in
  rd s' = snd (Read 3 r1)
  /\ dpc s' = (if snd (drain_iter stream_Read 1024 (rd parked))
               then DRead else DDone)
  /\ match fst (Read 3 r1) with
     | Returned d e =>
         cpc s' = CIdle /\ read_log s' = read_log parked ++ [(3, d, e)]
     | Waits => cpc s' = CLock 3 /\ read_log s' = read_log parked
     end.
Proof.
  apply (Signal_wakes_parked_Read bytes stream_Read 1024 parked 3);
    reflexivity.
Defined.

Lemma Read_overtaken_waits_for_good_witness :
  let s := run stream_Read 2
             (overtaken_at_Lock (length hello) 3 [ActCons; ActDrain])
             (newBufReader hello) in
  cpc s = CParked 3 /\ dpc s = DDone
  /\ buf (rd s) = hello /\ err (rd s) = Some io_EOF /\ read_log s = [].
Proof.
  apply (Read_overtaken_waits_for_good hello 2 3 [ActCons; ActDrain]). lia.
Defined.

Lemma Read_overtaken_returns_EOF_first_witness :
  let s := run stream_Read 2 (overtaken_at_err (length hello) 3)
             (newBufReader hello) in
  cpc s = CIdle /\ read_log s = [(3, [], Some io_EOF)]
  /\ buf (rd s) = hello /\ dpc s = DDone.
Proof.
  apply (Read_overtaken_returns_EOF_first hello 2 3). lia.
Defined.

Lemma Read_returns_bytes_or_error_witness :
  let s := run stream_Read 1024
             (repeat ActDrain 5 ++ [ActCall 3; ActCons])
             (newBufReader hello) in
  In (3, firstn 3 hello, None) (read_log s)
  /\ ((@None error = None /\ firstn 3 hello <> []
       /\ length (firstn 3 hello) <= 3)
      \/ (firstn 3 hello = [] /\ @None error <> None
          /\ None = err (rd s))).
Proof.
  assert (H : In (3, firstn 3 hello, None)
                (read_log (run stream_Read 1024
                             (repeat ActDrain 5 ++ [ActCall 3; ActCons])
                             (newBufReader hello))))
    by (vm_compute; auto).
  split; [exact H|].
  exact (Read_returns_bytes_or_error bytes stream_Read 1024 hello
           (repeat ActDrain 5 ++ [ActCall 3; ActCons]) 3 (firstn 3 hello)
           None H).
Defined.

Lemma drain_appends_whole_stream_witness :
  drain stream_Read 2 (S 5) {| buf := []; reader := hello; err := None |}
  = Some {| buf := [] ++ hello; reader := []; err := Some io_EOF |}.
Proof.
  apply (drain_appends_whole_stream hello [] None 2 5); simpl; lia.
Defined.

End ReaderDemo.
